(** * Smart inventory management: the warehouse module

    A shallow embedding of [Inventory/wearhouse.py]: the product catalog
    ([INVENTORY]), the composite index ([COMPOSITE_PRODUCTS]), the
    transaction ledger, the two order queues, and the operations
    [_get_product_by_id], [calculate_composite_cost], [add_new_product] and
    [place_order]; then the reports [generate_inventory_report] and
    [display_ledger], and the menu loop [main].  The functions of Python's
    [heapq] are embedded from Lib/heapq.py: [heappush], which [place_order]
    calls, and [heappop], which stands for the removal the spec describes
    and the source lacks.

    Conventions.
    - Python [int] is [Z]; list indices are [nat].
    - Prices are Python numbers (the literal [0] and floats).  A price is
      modelled by the exact rational it denotes ([Q]); rounding of binary
      floating point is not modelled, and neither are [inf] and [nan].  On
      the seeded data nothing is lost: [binary64_sum] below is the running
      total as binary64 arithmetic computes it, and on the seeded prices it
      denotes the very rational the model computes.
    - An exception is a value of [exn]; a computation that may raise returns
      [result].  Functions that mutate the module's globals run in the
      monad [M], which threads the [world] and keeps every mutation made
      before an exception is raised.
    - [input] and [datetime.datetime.now] are the environment: what the
      user typed is an argument of the operation (a numeric entry is the
      parse attempted by [int] or [float]), and so is the clock reading.
      [main] reads the lines typed from a list, each line with its text and
      its two parses; [input] on the empty list raises [EOFError].
    - [print] is modelled by the value an operation returns: the message it
      printed last. *)

From Stdlib Require Import QArith.
From Stdlib Require Import PrimFloat SpecFloat FloatOps.
From Equations Require Import Equations.
From stdpp Require Import gmap strings list sorting.
Close Scope Q_scope.
Open Scope Z_scope.

(** ** Exceptions *)

Inductive exn : Type := ValueError | IndexError | RecursionError.

Inductive result (A : Type) : Type :=
  | Ok (a : A)
  | Raise (e : exn).
Arguments Ok {A} a.
Arguments Raise {A} e.

#[export] Instance result_ret : MRet result := fun A a => Ok a.
#[export] Instance result_bind : MBind result := fun A B f m =>
  match m with
  | Ok a => f a
  | Raise e => Raise e
  end.

(** [l[i]] for a non-negative index: [IndexError] out of range. *)
Definition getitem {A} (l : list A) (i : nat) : result A :=
  match l !! i with
  | Some x => Ok x
  | None => Raise IndexError
  end.

(** [l[i] = x] for a non-negative index: [IndexError] out of range. *)
Definition setitem {A} (l : list A) (i : nat) (x : A) : result (list A) :=
  if decide (i < length l)%nat then Ok (<[i := x]> l) else Raise IndexError.

(** ** Data *)

(** A catalog row [[id, name, category, price, stock]]; the fields are named
    after the positions the code reads: [product[0]], [product[1]],
    [product[3]], [product[4]]. *)
Record product : Type := Product {
  product_id_of : Z;
  product_name : string;
  product_category : string;
  product_price : Q;
  product_stock : Z
}.

(** A [datetime]: microseconds since the epoch. *)
Definition datetime : Type := Z.

(** [int(dt.timestamp())]: whole seconds, [int] truncating toward zero. *)
Definition int_timestamp (dt : datetime) : Z := dt `quot` 1000000.

(** The dict built by [TransactionLedger.add_transaction]. *)
Record transaction_record : Type := TransactionRecord {
  timestamp : datetime;
  product_id : Z;
  description : string;
  quantity_change : Z
}.

(** The tuple [(order_id, product_id, quantity)]. *)
Definition order : Type := Z * Z * Z.

(** The module's mutable globals.  [ledger] is [ledger.transactions];
    [COMPOSITE_PRODUCTS] is never assigned to and stays a constant. *)
Record world : Type := World {
  inventory : list product;
  ledger : list transaction_record;
  order_queue : list order;
  backorder_queue : list order
}.

Definition INVENTORY : list product :=
  [ Product 101 "Gaming Mouse" "Electronics" 75.50 80;
    Product 102 "Mechanical Keyboard" "Electronics" 120.00 50;
    Product 103 "Webcam" "Electronics" 90.00 60;
    Product 201 "Office Chair" "Furniture" 150.00 30;
    Product 202 "Desk Lamp" "Furniture" 45.75 100;
    Product 901 "Gamer PC Bundle" "Composite" 0 10 ].

Definition COMPOSITE_PRODUCTS : gmap Z (list Z) :=
  {[ 901 := [101; 102; 103] ]}.

(** ** Tuple comparison and heapq *)

(** [a < b] on 3-tuples of ints: the first position where the two differ
    decides; equal tuples of equal length are not less. *)
Definition tuple_lt (a b : order) : bool :=
  let '(a0, a1, a2) := a in
  let '(b0, b1, b2) := b in
  if negb (a0 =? b0) then a0 <? b0
  else if negb (a1 =? b1) then a1 <? b1
  else if negb (a2 =? b2) then a2 <? b2
  else false.

(** The [while pos > startpos] loop of [heapq._siftdown]; [heap[pos]] is
    the hole [newitem] is moved towards the root through.  [(pos - 1) >> 1]
    is [(pos - 1) / 2]. *)
Equations? siftdown_loop (heap : list order) (newitem : order)
    (startpos pos : nat) : result (list order) by wf pos lt :=
siftdown_loop heap newitem startpos pos with decide (startpos < pos)%nat := {
  | left _ =>
      match getitem heap ((pos - 1) / 2)%nat with
      | Ok parent =>
          if tuple_lt newitem parent
          then match setitem heap pos parent with
               | Ok heap' =>
                   siftdown_loop heap' newitem startpos ((pos - 1) / 2)%nat
               | Raise e => Raise e
               end
          else setitem heap pos newitem
      | Raise e => Raise e
      end
  | right _ => setitem heap pos newitem }.
Proof.
  change ((pos - 1) / 2 < pos)%nat.
  apply Nat.Div0.div_lt_upper_bound; lia.
Qed.

Definition _siftdown (heap : list order) (startpos pos : nat)
    : result (list order) :=
  newitem ← getitem heap pos;
  siftdown_loop heap newitem startpos pos.

(** [heapq.heappush(heap, item)]. *)
Definition heappush (heap : list order) (item : order) : result (list order) :=
  let heap := heap ++ [item] in
  _siftdown heap 0 (length heap - 1).

(** The test [rightpos < endpos and not heap[childpos] < heap[rightpos]] of
    [heapq._siftup], with its short circuit. *)
Definition right_child_not_larger (heap : list order) (endpos childpos : nat)
    : result bool :=
  if decide (childpos + 1 < endpos)%nat then
    left_child ← getitem heap childpos;
    right_child ← getitem heap (childpos + 1)%nat;
    mret (negb (tuple_lt left_child right_child))
  else mret false.

(** The [while childpos < endpos] loop of [heapq._siftup]: the smaller child
    moves up into the hole at [pos] until the hole is a leaf.  Returns the
    heap and the final [pos]. *)
Equations? siftup_loop (heap : list order) (endpos pos : nat)
    : result (list order * nat) by wf (endpos - pos)%nat lt :=
siftup_loop heap endpos pos with decide (2 * pos + 1 < endpos)%nat := {
  | right _ => Ok (heap, pos)
  | left _ with right_child_not_larger heap endpos (2 * pos + 1)%nat := {
      | Raise e => Raise e
      | Ok true =>
          match getitem heap (2 * pos + 1 + 1)%nat with
          | Ok child =>
              match setitem heap pos child with
              | Ok heap' => siftup_loop heap' endpos (2 * pos + 1 + 1)%nat
              | Raise e => Raise e
              end
          | Raise e => Raise e
          end
      | Ok false =>
          match getitem heap (2 * pos + 1)%nat with
          | Ok child =>
              match setitem heap pos child with
              | Ok heap' => siftup_loop heap' endpos (2 * pos + 1)%nat
              | Raise e => Raise e
              end
          | Raise e => Raise e
          end } }.
Proof. all: lia. Qed.

Definition _siftup (heap : list order) (pos : nat) : result (list order) :=
  let endpos := length heap in
  let startpos := pos in
  newitem ← getitem heap pos;
  '(heap, pos) ← siftup_loop heap endpos pos;
  heap ← setitem heap pos newitem;
  _siftdown heap startpos pos.

(** [heapq.heappop(heap)]: the popped item and the heap left behind.
    [heap.pop()] on an empty list raises [IndexError]. *)
Definition heappop (heap : list order) : result (order * list order) :=
  match last heap with
  | None => Raise IndexError
  | Some lastelt =>
      let heap := removelast heap in
      match heap with
      | [] => Ok (lastelt, heap)
      | returnitem :: _ =>
          heap ← setitem heap 0 lastelt;
          heap ← _siftup heap 0;
          mret (returnitem, heap)
      end
  end.

(** Modelled from the spec: the Backorder Queue's [peek_min].  The source
    only ever pushes onto [backorder_queue]; nothing in it reads the queue.
    The queue is the list [heapq.heappush] maintains, whose smallest item
    [heapq] keeps at [heap[0]]. *)
Definition peek_min (backorder_queue : list order) : result order :=
  getitem backorder_queue 0.

(** Modelled from the spec: the Backorder Queue's [pop_min].  Nothing in
    the source pops the queue either; on the list [heapq.heappush]
    maintains, removing the smallest item is [heapq.heappop]. *)
Definition pop_min (backorder_queue : list order)
    : result (order * list order) :=
  heappop backorder_queue.

(** ** The monad of the operations *)

(** A computation over the module's globals: the world it leaves, and the
    value it returns or the exception it raises.  The world returned with an
    exception is the world at the moment of the raise. *)
Definition M (A : Type) : Type := world → world * result A.

#[export] Instance M_ret : MRet M := fun A a w => (w, Ok a).
#[export] Instance M_bind : MBind M := fun A B f m w =>
  match m w with
  | (w', Ok a) => f a w'
  | (w', Raise e) => (w', Raise e)
  end.

(** A pure computation that may raise, run inside [M]. *)
Definition lift {A} (r : result A) : M A := fun w => (w, r).

(** Read the globals. *)
Definition gets {A} (f : world → A) : M A := fun w => (w, Ok (f w)).

(** Mutate the globals. *)
Definition modify (f : world → world) : M unit := fun w => (f w, Ok tt).

(** [try: body / except ValueError: handler].  Other exceptions escape. *)
Definition try_except_ValueError {A} (body handler : M A) : M A := fun w =>
  match body w with
  | (w', Raise ValueError) => handler w'
  | (w', r) => (w', r)
  end.

(** [INVENTORY.append(x)], [ledger.transactions.append(x)],
    [order_queue.append(x)], and the in-place update of [backorder_queue]
    made by [heapq.heappush]. *)
Definition inventory_append (x : product) (w : world) : world :=
  World (inventory w ++ [x]) (ledger w) (order_queue w) (backorder_queue w).

Definition transactions_append (x : transaction_record) (w : world) : world :=
  World (inventory w) (ledger w ++ [x]) (order_queue w) (backorder_queue w).

Definition order_queue_append (x : order) (w : world) : world :=
  World (inventory w) (ledger w) (order_queue w ++ [x]) (backorder_queue w).

Definition backorder_queue_set (heap : list order) (w : world) : world :=
  World (inventory w) (ledger w) (order_queue w) heap.

(** [int(input(...))] and [float(input(...))] on what the user typed: the
    number the text denotes, or [ValueError] when it denotes none ([None]). *)
Definition py_int (entry : option Z) : M Z :=
  match entry with
  | Some n => mret n
  | None => lift (Raise ValueError)
  end.

Definition py_float (entry : option Q) : M Q :=
  match entry with
  | Some x => mret x
  | None => lift (Raise ValueError)
  end.

(** The builtin [max] over a generator of ints: [ValueError] on an empty
    one, else the running maximum. *)
Definition py_max (items : list Z) : result Z :=
  match items with
  | [] => Raise ValueError
  | first :: rest =>
      Ok (foldl (fun best item => if best <? item then item else best)
                first rest)
  end.

(** The builtin [sum] over a list of numbers: the running total from 0. *)
Definition py_sum (numbers : list Q) : Q := foldl Qplus 0%Q numbers.

(** [sum(f(x) for x in items)]: the running total, started at [total];
    the generator raises what [f] raises. *)
Fixpoint sum_generator (f : Z → result Q) (items : list Z) (total : Q)
    : result Q :=
  match items with
  | [] => Ok total
  | x :: items' =>
      match f x with
      | Ok value => sum_generator f items' (total + value)%Q
      | Raise e => Raise e
      end
  end.

(** The rational a binary64 float is; none for the infinities and nan. *)
Definition binary64_value (x : float) : option Q :=
  match Prim2SF x with
  | S754_zero _ => Some 0%Q
  | S754_finite negative m e =>
      Some ((if negative then -1 else 1) * inject_Z (Z.pos m) * 2 ^ e)%Q
  | S754_infinity _ | S754_nan => None
  end.

(** The float [x] is the rational [q]. *)
Definition denotes (x : float) (q : Q) : Prop :=
  ∃ value, binary64_value x = Some value ∧ (value == q)%Q.

(** The running total of [sum] over floats, each addition rounded to
    binary64; the [int] 0 it starts from is added as [0.0].  (From Python
    3.12 [sum] also carries a compensation term; it stays zero as long as no
    addition rounds.) *)
Definition binary64_sum (numbers : list float) : float :=
  foldl PrimFloat.add 0%float numbers.

(** ** The program's functions *)

(** What the operations below print last. *)
Inductive message : Type :=
  | SuccessfullyAdded (name : string) (new_id : Z)
  | InvalidPriceOrStock
  | ProductNotFound
  | SufficientStock
  | InsufficientStock
  | InvalidInput.

(** [TransactionLedger.add_transaction]; [now] is [datetime.datetime.now()]. *)
Definition add_transaction (now : datetime) (product_id : Z)
    (description : string) (quantity_change : Z) : M unit :=
  let transaction_record :=
    TransactionRecord now product_id description quantity_change in
  modify (transactions_append transaction_record).

(** [_get_product_by_id]: the first row with that id, or [None]. *)
Fixpoint _get_product_by_id (INVENTORY : list product) (product_id : Z)
    : option product :=
  match INVENTORY with
  | [] => None
  | product :: rest =>
      if decide (product_id_of product = product_id) then Some product
      else _get_product_by_id rest product_id
  end.

(** [calculate_composite_cost].  [limit] is the number of nested calls the
    interpreter still allows: at 0 the call raises [RecursionError]. *)
Fixpoint calculate_composite_cost (COMPOSITE_PRODUCTS : gmap Z (list Z))
    (INVENTORY : list product) (limit : nat) (product_id : Z) : result Q :=
  match limit with
  | O => Raise RecursionError
  | S limit' =>
      match COMPOSITE_PRODUCTS !! product_id with
      | None =>
          match _get_product_by_id INVENTORY product_id with
          | Some product => Ok (product_price product)
          | None => Ok 0%Q
          end
      | Some parts =>
          sum_generator
            (calculate_composite_cost COMPOSITE_PRODUCTS INVENTORY limit')
            parts 0%Q
      end
  end.

(** [add_new_product].  The four arguments are what the user types at the
    four prompts; [now] is the clock read by [add_transaction]. *)
Definition add_new_product (name category : string) (price_entry : option Q)
    (stock_entry : option Z) (now : datetime) : M message :=
  try_except_ValueError
    (price ← py_float price_entry;
     stock ← py_int stock_entry;
     ids ← gets (fun w => product_id_of <$> inventory w);
     largest ← lift (py_max ids);
     let new_id := largest + 1 in
     let new_product := Product new_id name category price stock in
     modify (inventory_append new_product);;
     add_transaction now new_id "initial stock" stock;;
     mret (SuccessfullyAdded name new_id))
    (mret InvalidPriceOrStock).

(** [place_order].  The two entries are what the user types at the two
    prompts (the second is only read for a known product); [now] is the
    clock read for the order id. *)
Definition place_order (product_id_entry quantity_entry : option Z)
    (now : datetime) : M message :=
  try_except_ValueError
    (product_id ← py_int product_id_entry;
     found ← gets (fun w => _get_product_by_id (inventory w) product_id);
     match found with
     | None => mret ProductNotFound
     | Some product =>
         quantity ← py_int quantity_entry;
         let order_id := int_timestamp now in
         let order := (order_id, product_id, quantity) in
         if bool_decide (product_stock product >= quantity) then
           modify (order_queue_append order);;
           mret SufficientStock
         else
           heap ← gets backorder_queue;
           heap ← lift (heappush heap order);
           modify (backorder_queue_set heap);;
           mret InsufficientStock
     end)
    (mret InvalidInput).

(** The module's top-level code: the globals are created, then
    [for product in INVENTORY: ledger.add_transaction(...)] enters every
    seeded row in the ledger.  [clock i] is the time read for the [i]-th
    of these entries. *)
Fixpoint record_initial_stock (clock : nat → datetime) (i : nat)
    (products : list product) : M unit :=
  match products with
  | [] => mret tt
  | product :: rest =>
      add_transaction (clock i) (product_id_of product) "initial stock"
                      (product_stock product);;
      record_initial_stock clock (S i) rest
  end.

Definition initial_world (clock : nat → datetime) : world :=
  (record_initial_stock clock 0 INVENTORY (World INVENTORY [] [] [])).1.

(** ** Runs of the program *)

(** One call of an operation that writes to the globals.  The menu of
    [main] reaches [add_new_product] and [place_order];
    [ledger.add_transaction] is the ledger's own entry point. *)
Inductive call : Type :=
  | AddNewProduct (name category : string) (price_entry : option Q)
                  (stock_entry : option Z)
  | PlaceOrder (product_id_entry quantity_entry : option Z)
  | AddTransaction (product_id : Z) (description : string)
                   (quantity_change : Z).

(** The call made at clock reading [now]; the value is the message printed,
    if the operation prints one. *)
Definition perform (c : call) (now : datetime) : M (option message) :=
  match c with
  | AddNewProduct name category price_entry stock_entry =>
      printed ← add_new_product name category price_entry stock_entry now;
      mret (Some printed)
  | PlaceOrder product_id_entry quantity_entry =>
      printed ← place_order product_id_entry quantity_entry now;
      mret (Some printed)
  | AddTransaction product_id description quantity_change =>
      add_transaction now product_id description quantity_change;;
      mret None
  end.

Definition step (w : world) (c : call * datetime) : world :=
  (perform c.1 c.2 w).1.

(** The world after a sequence of calls, each with its clock reading. *)
Definition run (w : world) (calls : list (call * datetime)) : world :=
  foldl step w calls.

(** The product id a call reports as newly assigned, if it reports one. *)
Definition assigned_id (outcome : world * result (option message))
    : option Z :=
  match outcome.2 with
  | Ok (Some (SuccessfullyAdded _ new_id)) => Some new_id
  | _ => None
  end.

(** The ids assigned along a sequence of calls, in the order assigned. *)
Fixpoint assigned_ids (w : world) (calls : list (call * datetime)) : list Z :=
  match calls with
  | [] => []
  | c :: rest =>
      let outcome := perform c.1 c.2 w in
      match assigned_id outcome with
      | Some new_id => new_id :: assigned_ids outcome.1 rest
      | None => assigned_ids outcome.1 rest
      end
  end.

(** The messages that report a failed operation. *)
Definition is_failure (printed : message) : bool :=
  match printed with
  | InvalidPriceOrStock | ProductNotFound | InvalidInput => true
  | SuccessfullyAdded _ _ | SufficientStock | InsufficientStock => false
  end.

(** ** Vocabulary of the statements *)

(** [id] is one more than the largest product id of the catalog. *)
Definition max_id_plus_one (catalog : list product) (id : Z) : Prop :=
  (∃ p, p ∈ catalog ∧ product_id_of p = id - 1) ∧
  (∀ p, p ∈ catalog → product_id_of p <= id - 1).

(** The rows of a catalog other than those with id [id]. *)
Definition rows_other_than (id : Z) (catalog : list product) : list product :=
  filter (fun p => product_id_of p ≠ id) catalog.

(** [calculate_composite_cost(product_id)] returns [cost], the interpreter
    allowing enough nested calls. *)
Definition cost_is (COMPOSITE_PRODUCTS : gmap Z (list Z))
    (INVENTORY : list product) (product_id : Z) (cost : Q) : Prop :=
  ∃ limit,
    calculate_composite_cost COMPOSITE_PRODUCTS INVENTORY limit product_id
    = Ok cost.

(** [a <= b] on order tuples, as Python evaluates it: [not b < a]. *)
Definition tuple_le (a b : order) : Prop := tuple_lt b a = false.

(** The lexicographic order on [(order_id, product_id, quantity)]: a smaller
    order id; or the same order id and a smaller product id; or the same
    two and a smaller quantity. *)
Definition lex_lt (a b : order) : Prop :=
  a.1.1 < b.1.1 ∨
  (a.1.1 = b.1.1 ∧ (a.1.2 < b.1.2 ∨ (a.1.2 = b.1.2 ∧ a.2 < b.2))).

(** The parent of position [i] in the array of a binary heap. *)
Definition parent (i : nat) : nat := ((i - 1) / 2)%nat.

(** The invariant of [heapq]: no item is smaller than its parent. *)
Definition heap_ordered (heap : list order) : Prop :=
  ∀ i child par, (0 < i)%nat →
    heap !! i = Some child → heap !! parent i = Some par → tuple_le par child.

(** [heap_ordered] as a check that runs. *)
Definition is_heap (heap : list order) : bool :=
  forallb (fun i =>
             match heap !! i, heap !! parent i with
             | Some child, Some par => negb (tuple_lt child par)
             | _, _ => true
             end)
          (seq 1 (length heap - 1)).

(** The loop invariant of [_siftdown]: the heap is ordered everywhere but
    at the hole [pos]; [newitem], which will fill the hole, is no larger
    than the hole's children; and the hole's parent is no larger than the
    hole's children. *)
Record hole_inv (heap : list order) (newitem : order) (pos : nat) : Prop := {
  hole_others : ∀ i child par, (0 < i)%nat → i ≠ pos →
    heap !! i = Some child → heap !! parent i = Some par → tuple_le par child;
  hole_children : ∀ i child, (0 < i)%nat → parent i = pos →
    heap !! i = Some child → tuple_le newitem child;
  hole_grandchildren : ∀ i child grand, (0 < i)%nat → parent i = pos →
    (0 < pos)%nat → heap !! i = Some child → heap !! parent pos = Some grand →
    tuple_le grand child
}.

(** The loop invariant of [_siftup]: the heap is ordered between every two
    positions other than the hole [pos], and the hole's parent is no larger
    than the hole's children. *)
Record sift_inv (heap : list order) (pos : nat) : Prop := {
  sift_others : ∀ i child par, (0 < i)%nat → i ≠ pos → parent i ≠ pos →
    heap !! i = Some child → heap !! parent i = Some par → tuple_le par child;
  sift_grandchildren : ∀ i child grand, (0 < i)%nat → parent i = pos →
    (0 < pos)%nat → heap !! i = Some child → heap !! parent pos = Some grand →
    tuple_le grand child
}.

(** ** Tactics *)

(** Case analysis on every integer comparison of a tuple comparison. *)
Ltac tuple_cases :=
  unfold tuple_le, tuple_lt, lex_lt in *; simpl in *;
  repeat match goal with
         | |- context [?x =? ?y] => destruct (Z.eqb_spec x y); simpl
         | H : context [?x =? ?y] |- _ => destruct (Z.eqb_spec x y); simpl in H
         | |- context [?x <? ?y] => destruct (Z.ltb_spec x y); simpl
         | H : context [?x <? ?y] |- _ => destruct (Z.ltb_spec x y); simpl in H
         end.

(** Run the binds of the [result] monad. *)
Ltac result_simpl :=
  unfold mbind, mret, result_bind, result_ret,
    siftup_loop_unfold_clause_1_clause_2;
  cbn beta iota delta [negb].

(** Run the binds of the monad [M] and the primitives of the operations. *)
Ltac M_simpl :=
  unfold try_except_ValueError, py_int, py_float, add_transaction,
    mbind, mret, M_bind, M_ret, lift, gets, modify;
  cbn beta iota.

(** ** The rest of the program *)

(** What the report and menu functions print, beside the messages of
    [add_new_product] and [place_order].  A table is the rows it lists, in
    the order listed; the formatting of a row is not modelled. *)
Inductive output : Type :=
  | Printed (printed : message)
  | InventoryReport (rows : list product) (total_value : Q)
  | NoTransactionsRecorded
  | LedgerReport (rows : list transaction_record)
  | ProcessingNextOrder
  | DispatchingTruck
  | CalculatedCost (cost : Q)
  | InvalidChoice
  | Goodbye.

(** [sum(p[3] * p[4] for p in INVENTORY)] of [generate_inventory_report];
    the stock, an [int], multiplies the price as the number it is. *)
Definition total_value (INVENTORY : list product) : Q :=
  py_sum ((fun p => product_price p * inject_Z (product_stock p))%Q
            <$> INVENTORY).

(** [generate_inventory_report]: one line per row, then the total value. *)
Definition generate_inventory_report : M output :=
  rows ← gets inventory;
  mret (InventoryReport rows (total_value rows)).

(** [TransactionLedger.display_ledger]: a notice when the ledger is empty,
    else one line per record. *)
Definition display_ledger : M output :=
  transactions ← gets ledger;
  match transactions with
  | [] => mret NoTransactionsRecorded
  | _ :: _ => mret (LedgerReport transactions)
  end.

(** A line typed at a prompt: its text, and what [int] and [float] make of
    it ([None] where they raise [ValueError]). *)
Record line : Type := Line {
  text : string;
  as_int : option Z;
  as_float : option Q
}.

(** What ends [main]: an exception of the program that nothing catches, or
    the [EOFError] of [input] when nothing is left to read. *)
Inductive escaped : Type :=
  | Uncaught (e : exn)
  | EOFError.

(** One pass of the loop of [main]: it goes on to the next pass, leaves the
    loop, or an exception escapes.  Each case holds the lines still unread,
    the globals, and what the pass printed. *)
Inductive pass : Type :=
  | Continue (stdin : list line) (w : world) (shown : list output)
  | Break (stdin : list line) (w : world) (shown : list output)
  | Escape (e : escaped) (stdin : list line) (w : world)
           (shown : list output).

(** [_pause]: [input] reads one line and drops it. *)
Definition _pause (stdin : list line) (w : world) (shown : list output)
    : pass :=
  match stdin with
  | [] => Escape EOFError [] w shown
  | _ :: stdin' => Continue stdin' w shown
  end.

(** An operation called from the menu, then [_pause]; an exception of the
    operation escapes before the pause. *)
Definition then_pause {A} (show : A → output) (stdin : list line)
    (outcome : world * result A) : pass :=
  match outcome with
  | (w', Ok value) => _pause stdin w' [show value]
  | (w', Raise e) => Escape (Uncaught e) stdin w' []
  end.

(** [add_new_product] reading its four prompts from the lines typed: the
    stock is only asked for once [float] has accepted the price. *)
Definition add_new_product_typed (stdin : list line) (now : datetime)
    (w : world) : pass :=
  match stdin with
  | name :: category :: price :: stdin' =>
      match as_float price with
      | None =>
          then_pause Printed stdin'
            (add_new_product (text name) (text category) None None now w)
      | Some _ =>
          match stdin' with
          | stock :: stdin'' =>
              then_pause Printed stdin''
                (add_new_product (text name) (text category) (as_float price)
                                 (as_int stock) now w)
          | [] => Escape EOFError [] w []
          end
      end
  | _ => Escape EOFError [] w []
  end.

(** [place_order] reading its prompts from the lines typed: the quantity is
    only asked for once the product is found. *)
Definition place_order_typed (stdin : list line) (now : datetime) (w : world)
    : pass :=
  match stdin with
  | [] => Escape EOFError [] w []
  | entry :: stdin' =>
      match as_int entry with
      | None => then_pause Printed stdin' (place_order None None now w)
      | Some product_id =>
          match _get_product_by_id (inventory w) product_id with
          | None =>
              then_pause Printed stdin'
                (place_order (Some product_id) None now w)
          | Some _ =>
              match stdin' with
              | quantity :: stdin'' =>
                  then_pause Printed stdin''
                    (place_order (Some product_id) (as_int quantity) now w)
              | [] => Escape EOFError [] w []
              end
          end
      end
  end.

(** Option 7 of the menu: [int(input(...))] outside any [try], then
    [calculate_composite_cost]. *)
Definition cost_typed (limit : nat) (stdin : list line) (w : world) : pass :=
  match stdin with
  | [] => Escape EOFError [] w []
  | entry :: stdin' =>
      match as_int entry with
      | None => Escape (Uncaught ValueError) stdin' w []
      | Some pid =>
          then_pause CalculatedCost stdin'
            (w, calculate_composite_cost COMPOSITE_PRODUCTS (inventory w)
                  limit pid)
      end
  end.

(** The body of [while True] in [main]: the choice is read, then compared
    with ['1'] to ['8'] as typed.  [now] is the clock during the pass and
    [limit] the nesting the interpreter allows [calculate_composite_cost]. *)
Definition main_pass (limit : nat) (now : datetime) (stdin : list line)
    (w : world) : pass :=
  match stdin with
  | [] => Escape EOFError [] w []
  | choice :: stdin' =>
      if decide (text choice = "1") then
        then_pause id stdin' (generate_inventory_report w)
      else if decide (text choice = "2") then
        add_new_product_typed stdin' now w
      else if decide (text choice = "3") then
        then_pause id stdin' (display_ledger w)
      else if decide (text choice = "4") then
        place_order_typed stdin' now w
      else if decide (text choice = "5") then
        _pause stdin' w [ProcessingNextOrder]
      else if decide (text choice = "6") then
        _pause stdin' w [DispatchingTruck]
      else if decide (text choice = "7") then
        cost_typed limit stdin' w
      else if decide (text choice = "8") then
        Break stdin' w [Goodbye]
      else
        _pause stdin' w [InvalidChoice]
  end.

(** How [main] ended, with the lines left unread, the globals, and all it
    printed. *)
Record session : Type := Session {
  ending : option escaped;
  unread : list line;
  globals : world;
  shown : list output
}.

(** A value together with the equation that says where it came from. *)
Definition inspect {A : Type} (x : A) : {y : A | x = y} := exist _ x eq_refl.

(** [main]: passes of the loop until one leaves it.  [clock i] is the time
    during pass [i]; every pass that goes on has read at least one line. *)
Equations? main_loop (limit : nat) (clock : nat → datetime) (i : nat)
    (stdin : list line) (w : world) (out : list output) : session
    by wf (length stdin) lt :=
main_loop limit clock i stdin w out
    with inspect (main_pass limit (clock i) stdin w) := {
  | exist _ (Continue stdin' w' printed) Hpass =>
      main_loop limit clock (S i) stdin' w' (out ++ printed)
  | exist _ (Break stdin' w' printed) _ =>
      Session None stdin' w' (out ++ printed)
  | exist _ (Escape e stdin' w' printed) _ =>
      Session (Some e) stdin' w' (out ++ printed) }.
Proof.
  revert Hpass. unfold main_pass, add_new_product_typed, place_order_typed,
    cost_typed, then_pause, _pause.
  intros Hpass.
  repeat (case_match; simplify_eq; simpl in *; try lia).
Qed.

Definition main (limit : nat) (clock : nat → datetime) (stdin : list line)
    (w : world) : session :=
  main_loop limit clock 0 stdin w [].

(** The globals a pass leaves, the lines it leaves unread, and what it
    printed. *)
Definition pass_world (p : pass) : world :=
  match p with
  | Continue _ w _ | Break _ w _ | Escape _ _ w _ => w
  end.

Definition pass_stdin (p : pass) : list line :=
  match p with
  | Continue stdin _ _ | Break stdin _ _ | Escape _ stdin _ _ => stdin
  end.



(** ** Vocabulary for the rest of the program *)

(** The ids of the rows of a catalog, in order. *)
Definition ids (catalog : list product) : list Z := product_id_of <$> catalog.

(** The ledger entry [add_new_product] and the module's top-level code make
    for a row, but for its timestamp: id, description, quantity. *)
Definition initial_stock_of (p : product) : Z * string * Z :=
  (product_id_of p, "initial stock"%string, product_stock p).

Definition entry_of (t : transaction_record) : Z * string * Z :=
  (product_id t, description t, quantity_change t).

(** A call the menu of [main] can make. *)
Definition from_menu (c : call * datetime) : Prop :=
  match c.1 with
  | AddTransaction _ _ _ => False
  | _ => True
  end.

(** * Facts *)

(** ** The model on concrete inputs *)

(** Ties on the order id are broken by the product id, then the quantity;
    a tuple is not less than itself. *)
Example tuple_lt_ties :
  tuple_lt (3, 0, 7) (3, 1, 1) = true ∧ tuple_lt (3, 1, 1) (3, 1, 2) = true ∧
  tuple_lt (3, 1, 1) (3, 1, 1) = false ∧ tuple_lt (4, 0, 0) (3, 9, 9) = false.
Proof. by vm_compute. Qed.

(** Ten pushes onto an empty list leave the array CPython's [heapq] leaves. *)
Example heappush_ten_times :
  foldl (fun heap item => heap ← heap; heappush heap item) (Ok [])
        [(5, 1, 1); (3, 1, 1); (9, 0, 0); (3, 0, 7); (3, 0, 2);
         (1, 1, 1); (8, 8, 8); (2, 2, 2); (7, 7, 7); (3, 1, 1)]
  = Ok [(1, 1, 1); (2, 2, 2); (3, 0, 2); (3, 0, 7); (3, 1, 1);
        (9, 0, 0); (8, 8, 8); (5, 1, 1); (7, 7, 7); (3, 1, 1)].
Proof. by vm_compute. Qed.

(** [heappop] on that array: the smallest tuple, and the array left. *)
Example heappop_after_ten_pushes :
  heappop [(1, 1, 1); (2, 2, 2); (3, 0, 2); (3, 0, 7); (3, 1, 1);
           (9, 0, 0); (8, 8, 8); (5, 1, 1); (7, 7, 7); (3, 1, 1)]
  = Ok ((1, 1, 1),
        [(2, 2, 2); (3, 0, 7); (3, 0, 2); (3, 1, 1); (3, 1, 1);
         (9, 0, 0); (8, 8, 8); (5, 1, 1); (7, 7, 7)]).
Proof. by vm_compute. Qed.

(** The first product added to the seeded catalog gets the id 902, a row at
    the end of the catalog and an entry at the end of the ledger. *)
Example add_new_product_seeded :
  let w := initial_world (fun _ => 0) in
  add_new_product "Monitor" "Electronics" (Some 199.99%Q) (Some 5) 10 w
  = (World (INVENTORY ++ [Product 902 "Monitor" "Electronics" 199.99 5])
           (ledger w ++ [TransactionRecord 10 902 "initial stock" 5])
           [] [],
     Ok (SuccessfullyAdded "Monitor" 902)).
Proof. by vm_compute. Qed.

(** On an empty catalog [max] raises [ValueError], which the handler of
    [add_new_product] reports as an invalid entry. *)
Example add_new_product_empty_catalog :
  add_new_product "Monitor" "Electronics" (Some 199.99%Q) (Some 5) 10
    (World [] [] [] [])
  = (World [] [] [] [], Ok InvalidPriceOrStock).
Proof. by vm_compute. Qed.

(** The cost of the bundle needs two nested calls. *)
Example calculate_composite_cost_limit :
  calculate_composite_cost COMPOSITE_PRODUCTS INVENTORY 1 901
    = Raise RecursionError ∧
  calculate_composite_cost COMPOSITE_PRODUCTS INVENTORY 1 202 = Ok 45.75%Q.
Proof. by vm_compute. Qed.

(** ** Builtins *)

(** An index in range is read without an exception. *)
Lemma getitem_Ok {A} (l : list A) (i : nat) :
  (i < length l)%nat → ∃ x, l !! i = Some x ∧ getitem l i = Ok x.
Proof.
  intros Hi. destruct (lookup_lt_is_Some_2 l i Hi) as [x Hx].
  exists x. unfold getitem. by rewrite Hx.
Qed.

(** An index in range is written without an exception. *)
Lemma setitem_Ok {A} (l : list A) (i : nat) (x : A) :
  (i < length l)%nat → setitem l i x = Ok (<[i := x]> l).
Proof. intros Hi. unfold setitem. by rewrite decide_True. Qed.

(** The running maximum is an item, and no item exceeds it. *)
Lemma py_max_foldl (rest : list Z) :
  ∀ first,
  let best := foldl (fun best item => if best <? item then item else best)
                    first rest in
  best ∈ first :: rest ∧ ∀ item, item ∈ first :: rest → item <= best.
Proof.
  induction rest as [|x rest IH]; intros first; simpl.
  - split; [by left|]. intros item ->%list_elem_of_singleton. lia.
  - destruct (IH (if first <? x then x else first)) as [Hin Hmax].
    split.
    + apply elem_of_cons in Hin as [->|Hin].
      * destruct (first <? x); [right; by left | by left].
      * right. by right.
    + intros item Hitem.
      assert (item <= (if first <? x then x else first) ∨ item ∈ rest) as [Hle|Hr].
      { apply elem_of_cons in Hitem as [->|Hitem];
          [left; destruct (Z.ltb_spec first x); lia|].
        apply elem_of_cons in Hitem as [->|Hitem]; [|by right].
        left. destruct (Z.ltb_spec first x); lia. }
      * pose proof (Hmax _ ltac:(by left)). lia.
      * apply Hmax. by right.
Qed.

(** [max] of a non-empty sequence returns its largest item. *)
Lemma py_max_Ok (items : list Z) :
  items ≠ [] →
  ∃ best, py_max items = Ok best ∧ best ∈ items ∧
          ∀ item, item ∈ items → item <= best.
Proof.
  destruct items as [|first rest]; [done|]. intros _.
  eexists. split; [done|]. apply py_max_foldl.
Qed.

(** [max] raises only on an empty sequence, and then [ValueError]. *)
Lemma py_max_Raise (items : list Z) (e : exn) :
  py_max items = Raise e → items = [] ∧ e = ValueError.
Proof. destruct items; simpl; intros; by simplify_eq. Qed.

(** [sum] over a generator returns exactly when every item is produced
    without an exception, and then the running total of the items. *)
Lemma sum_generator_Ok (f : Z → result Q) (items : list Z) :
  ∀ total cost,
  sum_generator f items total = Ok cost ↔
  ∃ values, Forall2 (fun x value => f x = Ok value) items values ∧
            cost = foldl Qplus total values.
Proof.
  induction items as [|x items IH]; intros total cost; simpl.
  - split.
    + intros [= <-]. exists []. by split; [constructor|].
    + intros (values & Hvalues & ->). by inversion Hvalues.
  - destruct (f x) as [value|e] eqn:Hfx.
    + rewrite IH. split.
      * intros (values & Hvalues & ->). exists (value :: values).
        by split; [constructor|].
      * intros (values & Hvalues & ->).
        inversion Hvalues as [|? value' ? values' Hfx' Hrest]; subst.
        rewrite Hfx in Hfx'. injection Hfx' as <-. by exists values'.
    + split; [done|]. intros (values & Hvalues & _).
      inversion Hvalues; congruence.
Qed.

(** [sum] over a generator depends on the generator's function pointwise. *)
Lemma sum_generator_ext (f g : Z → result Q) (items : list Z) (total : Q) :
  (∀ x, f x = g x) → sum_generator f items total = sum_generator g items total.
Proof.
  intros Hfg. revert total.
  induction items as [|x items IH]; intros total; simpl; [done|].
  rewrite Hfg. by destruct (g x).
Qed.

(** ** The order on order tuples *)

(** Python's [<] on order tuples is the lexicographic order. *)
Lemma tuple_lt_lex (a b : order) : tuple_lt a b = true ↔ lex_lt a b.
Proof.
  destruct a as [[a0 a1] a2], b as [[b0 b1] b2].
  tuple_cases; split; intros; try discriminate; try reflexivity; lia.
Qed.

(** [<=] on order tuples is reflexive. *)
Lemma tuple_le_refl (a : order) : tuple_le a a.
Proof. destruct a as [[a0 a1] a2]. tuple_cases; congruence. Qed.

(** [<=] on order tuples is transitive. *)
Lemma tuple_le_trans (a b c : order) :
  tuple_le a b → tuple_le b c → tuple_le a c.
Proof.
  destruct a as [[a0 a1] a2], b as [[b0 b1] b2], c as [[c0 c1] c2].
  intros Hab Hbc. tuple_cases; try discriminate; try reflexivity; lia.
Qed.

(** [a < b] gives [a <= b]. *)
Lemma tuple_lt_le (a b : order) : tuple_lt a b = true → tuple_le a b.
Proof.
  destruct a as [[a0 a1] a2], b as [[b0 b1] b2].
  intros Hab. tuple_cases; try discriminate; try reflexivity; lia.
Qed.

(** [a <= b] says that [b] is not lexicographically smaller than [a]. *)
Lemma tuple_le_not_lex (a b : order) : tuple_le a b ↔ ¬ lex_lt b a.
Proof.
  unfold tuple_le. rewrite <- tuple_lt_lex. by destruct (tuple_lt b a).
Qed.

(** ** heapq *)

(** The parent of a position other than the root lies before it. *)
Lemma parent_lt (i : nat) : (0 < i)%nat → (parent i < i)%nat.
Proof.
  intros Hi. unfold parent. apply Nat.Div0.div_lt_upper_bound. lia.
Qed.

(** A position other than the root is the left or the right child of its
    parent. *)
Lemma parent_children (i : nat) :
  (0 < i)%nat → i = (2 * parent i + 1)%nat ∨ i = (2 * parent i + 1 + 1)%nat.
Proof.
  intros Hi. unfold parent.
  pose proof (Nat.div_mod_eq (i - 1) 2) as Hdiv.
  pose proof (Nat.mod_upper_bound (i - 1) 2) as Hmod. lia.
Qed.

(** The parent of a left child. *)
Lemma parent_left (p : nat) : parent (2 * p + 1) = p.
Proof.
  unfold parent. replace (2 * p + 1 - 1)%nat with (p * 2)%nat by lia.
  by rewrite Nat.div_mul.
Qed.

(** The parent of a right child. *)
Lemma parent_right (p : nat) : parent (2 * p + 1 + 1) = p.
Proof.
  unfold parent. replace (2 * p + 1 + 1 - 1)%nat with (1 + p * 2)%nat by lia.
  by rewrite Nat.div_add.
Qed.

(** Whatever the heap holds, [_siftdown] from an index in range returns,
    and the hole is filled with [newitem]: nothing else is gained or lost. *)
Lemma siftdown_loop_total (pos : nat) :
  ∀ heap newitem startpos, (pos < length heap)%nat →
  ∃ heap', siftdown_loop heap newitem startpos pos = Ok heap' ∧
           heap' ≡ₚ <[pos := newitem]> heap.
Proof.
  induction (lt_wf pos) as [pos _ IH]. intros heap newitem startpos Hpos.
  rewrite siftdown_loop_equation_1. unfold siftdown_loop_unfold_clause_1.
  destruct (decide (startpos < pos)%nat) as [Hlt|Hge];
    [|rewrite setitem_Ok by done; by eexists].
  assert (0 < pos)%nat as Hpos0 by lia.
  pose proof (parent_lt pos Hpos0) as Hpar. fold (parent pos).
  destruct (getitem_Ok heap (parent pos)) as (par & Hp & ->); [lia|].
  destruct (tuple_lt newitem par);
    [|rewrite setitem_Ok by done; by eexists].
  rewrite setitem_Ok by done.
  destruct (IH (parent pos) Hpar (<[pos := par]> heap) newitem startpos)
    as (heap' & -> & Hperm); [rewrite length_insert; lia|].
  exists heap'. split; [done|]. rewrite Hperm.
  rewrite <- (list_insert_insert_eq heap pos par newitem).
  apply Permutation_insert_swap.
  - by rewrite list_lookup_insert_eq.
  - rewrite list_lookup_insert_ne by lia. done.
Qed.

(** [heappush] never raises, and the heap gains exactly the pushed item. *)
Lemma heappush_total (heap : list order) (item : order) :
  ∃ heap', heappush heap item = Ok heap' ∧ heap' ≡ₚ item :: heap.
Proof.
  unfold heappush, _siftdown. rewrite length_app. simpl.
  replace (length heap + 1 - 1)%nat with (length heap) by lia.
  assert (Hlast : (heap ++ [item]) !! length heap = Some item).
  { rewrite lookup_app_r by lia. by rewrite Nat.sub_diag. }
  unfold getitem. rewrite Hlast. result_simpl.
  destruct (siftdown_loop_total (length heap) (heap ++ [item]) item 0)
    as (heap' & -> & Hperm); [rewrite length_app; simpl; lia|].
  exists heap'. split; [done|].
  rewrite Hperm, list_insert_id by done. by rewrite Permutation_app_comm.
Qed.

(** From a hole that satisfies [hole_inv], [_siftdown] to the root returns an
    ordered heap, filling the hole with [newitem]. *)
Lemma siftdown_loop_ordered (pos : nat) :
  ∀ heap newitem, (pos < length heap)%nat → hole_inv heap newitem pos →
  ∃ heap', siftdown_loop heap newitem 0 pos = Ok heap' ∧
           heap' ≡ₚ <[pos := newitem]> heap ∧ heap_ordered heap'.
Proof.
  induction (lt_wf pos) as [pos _ IH]. intros heap newitem Hpos Hinv.
  rewrite siftdown_loop_equation_1. unfold siftdown_loop_unfold_clause_1.
  assert (Hfinal :
            ((0 < pos)%nat →
             ∃ par, heap !! parent pos = Some par ∧ tuple_le par newitem) →
            heap_ordered (<[pos := newitem]> heap)).
  { intros Hroot i child par Hi Hc Hp.
    destruct (decide (i = pos)) as [->|Hne].
    - rewrite list_lookup_insert_eq in Hc by done. simplify_eq.
      rewrite list_lookup_insert_ne in Hp by (pose proof (parent_lt pos Hi); lia).
      destruct (Hroot Hi) as (par' & Hp' & Hle). by simplify_eq.
    - rewrite list_lookup_insert_ne in Hc by lia.
      destruct (decide (parent i = pos)) as [Heq|Hne'].
      + rewrite Heq in Hp. rewrite list_lookup_insert_eq in Hp by done.
        simplify_eq. by eapply hole_children.
      + rewrite list_lookup_insert_ne in Hp by lia.
        by eapply hole_others. }
  destruct (decide (0 < pos)%nat) as [Hlt|Hge].
  - pose proof (parent_lt pos Hlt) as Hpar. fold (parent pos).
    destruct (getitem_Ok heap (parent pos)) as (par & Hp & ->); [lia|].
    destruct (tuple_lt newitem par) eqn:Hcmp.
    + rewrite setitem_Ok by done.
      destruct (IH (parent pos) Hpar (<[pos := par]> heap) newitem)
        as (heap' & -> & Hperm & Hord).
      * rewrite length_insert. lia.
      * split.
        -- intros i child p Hi Hne Hc Hpi.
           destruct (decide (i = pos)) as [->|Hne1].
           ++ rewrite list_lookup_insert_eq in Hc by done. simplify_eq.
              rewrite list_lookup_insert_ne in Hpi by lia. simplify_eq.
              apply tuple_le_refl.
           ++ rewrite list_lookup_insert_ne in Hc by lia.
              destruct (decide (parent i = pos)) as [Heq|Hne2].
              ** rewrite Heq in Hpi.
                 rewrite list_lookup_insert_eq in Hpi by done. simplify_eq.
                 eapply hole_grandchildren; eauto.
              ** rewrite list_lookup_insert_ne in Hpi by lia.
                 eapply hole_others; eauto.
        -- intros i child Hi Hpi Hc.
           destruct (decide (i = pos)) as [->|Hne1].
           ++ rewrite list_lookup_insert_eq in Hc by done. simplify_eq.
              by apply tuple_lt_le.
           ++ rewrite list_lookup_insert_ne in Hc by lia.
              eapply tuple_le_trans; [by apply tuple_lt_le|].
              apply (hole_others _ _ _ Hinv i); [done..|]. by rewrite Hpi.
        -- intros i child grand Hi Hpi Hpp Hc Hg.
           rewrite list_lookup_insert_ne in Hg
             by (pose proof (parent_lt _ Hpp); lia).
           destruct (decide (i = pos)) as [->|Hne1].
           ++ rewrite list_lookup_insert_eq in Hc by done. simplify_eq.
              eapply hole_others; eauto. lia.
           ++ rewrite list_lookup_insert_ne in Hc by lia.
              eapply tuple_le_trans.
              ** eapply (hole_others _ _ _ Hinv (parent pos)); eauto. lia.
              ** apply (hole_others _ _ _ Hinv i); [done..|]. by rewrite Hpi.
      * exists heap'. split_and!; [done| |done].
        rewrite Hperm.
        rewrite <- (list_insert_insert_eq heap pos par newitem).
        apply Permutation_insert_swap.
        -- by rewrite list_lookup_insert_eq.
        -- rewrite list_lookup_insert_ne by lia. done.
    + rewrite setitem_Ok by done. eexists. split_and!; [done..|].
      apply Hfinal. intros _. eauto.
  - rewrite setitem_Ok by done. eexists. split_and!; [done..|].
    apply Hfinal. intros ?. lia.
Qed.

(** The empty heap is ordered. *)
Lemma heap_ordered_nil : heap_ordered [].
Proof. intros i child par _ Hchild. by rewrite lookup_nil in Hchild. Qed.

(** [is_heap] decides [heap_ordered]. *)
Lemma is_heap_spec (heap : list order) :
  is_heap heap = true ↔ heap_ordered heap.
Proof.
  unfold is_heap, heap_ordered. rewrite forallb_forall. split.
  - intros Hcheck i child par Hi Hchild Hpar.
    pose proof (lookup_lt_Some _ _ _ Hchild) as Hlen.
    specialize (Hcheck i). rewrite Hchild, Hpar in Hcheck.
    unfold tuple_le. apply negb_true_iff, Hcheck, in_seq. lia.
  - intros Hord i [Hi _]%in_seq.
    destruct (heap !! i) as [child|] eqn:Hchild; [|done].
    destruct (heap !! parent i) as [par|] eqn:Hpar; [|done].
    apply negb_true_iff. by apply (Hord i).
Qed.

(** [heappush] keeps the heap ordered. *)
Lemma heappush_ordered (heap : list order) (item : order) :
  heap_ordered heap →
  ∃ heap', heappush heap item = Ok heap' ∧
           heap' ≡ₚ item :: heap ∧ heap_ordered heap'.
Proof.
  intros Hord. unfold heappush, _siftdown.
  rewrite length_app. simpl.
  replace (length heap + 1 - 1)%nat with (length heap) by lia.
  assert (Hlast : (heap ++ [item]) !! length heap = Some item).
  { rewrite lookup_app_r by lia. by rewrite Nat.sub_diag. }
  unfold getitem. rewrite Hlast. simpl.
  destruct (siftdown_loop_ordered (length heap) (heap ++ [item]) item)
    as (heap' & -> & Hperm & Hord').
  - rewrite length_app. simpl. lia.
  - split.
    + intros i child par Hi Hne Hc Hp.
      pose proof (lookup_lt_Some _ _ _ Hc) as Hlen.
      rewrite length_app in Hlen. simpl in Hlen.
      pose proof (parent_lt i Hi).
      rewrite lookup_app_l in Hc by lia. rewrite lookup_app_l in Hp by lia.
      by apply (Hord i).
    + intros i child Hi Hpi Hc.
      pose proof (lookup_lt_Some _ _ _ Hc) as Hlen.
      rewrite length_app in Hlen. simpl in Hlen.
      pose proof (parent_children i Hi). lia.
    + intros i child grand Hi Hpi _ Hc _.
      pose proof (lookup_lt_Some _ _ _ Hc) as Hlen.
      rewrite length_app in Hlen. simpl in Hlen.
      pose proof (parent_children i Hi). lia.
  - exists heap'. split_and!; [done| |done].
    rewrite Hperm, list_insert_id by done.
    by rewrite Permutation_app_comm.
Qed.

(** The root of an ordered heap is no larger than any item of the heap. *)
Lemma heap_ordered_root (heap : list order) (root : order) :
  heap_ordered heap → heap !! 0%nat = Some root →
  ∀ i item, heap !! i = Some item → tuple_le root item.
Proof.
  intros Hord Hroot i. induction (lt_wf i) as [i _ IH]. intros item Hi.
  destruct (decide (i = 0)%nat) as [->|Hne].
  - simplify_eq. apply tuple_le_refl.
  - assert (0 < i)%nat as Hpos by lia.
    pose proof (parent_lt i Hpos) as Hlt.
    destruct (lookup_lt_is_Some_2 heap (parent i)) as [par Hpar].
    { pose proof (lookup_lt_Some _ _ _ Hi). lia. }
    eapply tuple_le_trans; [by apply (IH (parent i))|].
    by apply (Hord i).
Qed.

(** One iteration of [_siftup]: the child [c] of the hole, no larger than the
    hole's other child, moves up into the hole, and the hole moves to [c]. *)
Lemma sift_inv_move (heap : list order) (pos c : nat) (item : order) :
  sift_inv heap pos → (pos < length heap)%nat →
  parent c = pos → (0 < c)%nat → heap !! c = Some item →
  (∀ i other, (0 < i)%nat → parent i = pos → i ≠ c →
     heap !! i = Some other → tuple_le item other) →
  sift_inv (<[pos := item]> heap) c.
Proof.
  intros Hinv Hpos Hpc Hc Hitem Hsib.
  pose proof (parent_lt c Hc) as Hlt.
  split.
  - intros i child par Hi Hne Hpne Hci Hpi.
    destruct (decide (i = pos)) as [->|Hne1].
    + rewrite list_lookup_insert_eq in Hci by done. simplify_eq.
      rewrite list_lookup_insert_ne in Hpi
        by (pose proof (parent_lt _ Hi); lia).
      by eapply (sift_grandchildren _ _ Hinv c).
    + rewrite list_lookup_insert_ne in Hci by lia.
      destruct (decide (parent i = pos)) as [Heq|Hne2].
      * rewrite Heq in Hpi. rewrite list_lookup_insert_eq in Hpi by done.
        simplify_eq. by eapply (Hsib i).
      * rewrite list_lookup_insert_ne in Hpi by lia.
        by eapply (sift_others _ _ Hinv i).
  - intros i child grand Hi Hpi _ Hci Hg.
    rewrite Hpc in Hg. rewrite list_lookup_insert_eq in Hg by done.
    injection Hg as <-. pose proof (parent_lt i Hi).
    rewrite list_lookup_insert_ne in Hci by lia.
    apply (sift_others _ _ Hinv i); [lia..|done|by rewrite Hpi].
Qed.

(** The loop of [_siftup] returns with the hole at a leaf, [sift_inv] still
    holding, and the items unchanged apart from the hole. *)
Lemma siftup_loop_leaf (n : nat) :
  ∀ heap pos, (length heap - pos)%nat = n → (pos < length heap)%nat →
  sift_inv heap pos →
  ∃ heap' pos', siftup_loop heap (length heap) pos = Ok (heap', pos') ∧
    length heap' = length heap ∧ (pos' < length heap)%nat ∧
    (length heap ≤ 2 * pos' + 1)%nat ∧ sift_inv heap' pos' ∧
    ∀ x, <[pos' := x]> heap' ≡ₚ <[pos := x]> heap.
Proof.
  induction (lt_wf n) as [n _ IH]. intros heap pos Hn Hpos Hinv.
  rewrite siftup_loop_equation_1. unfold siftup_loop_unfold_clause_1.
  destruct (decide (2 * pos + 1 < length heap)%nat) as [Hleft|Hleaf];
    [|exists heap, pos; split_and!; (done || lia)].
  assert (Hstep : ∀ c item, parent c = pos → (0 < c)%nat →
            (c < length heap)%nat → heap !! c = Some item →
            (∀ i other, (0 < i)%nat → parent i = pos → i ≠ c →
               heap !! i = Some other → tuple_le item other) →
            ∃ heap' pos',
              siftup_loop (<[pos := item]> heap) (length heap) c
                = Ok (heap', pos') ∧
              length heap' = length heap ∧ (pos' < length heap)%nat ∧
              (length heap ≤ 2 * pos' + 1)%nat ∧ sift_inv heap' pos' ∧
              ∀ x, <[pos' := x]> heap' ≡ₚ <[pos := x]> heap).
  { intros c item Hpc Hc Hclen Hitem Hsib.
    pose proof (parent_lt c Hc) as Hlt.
    destruct (IH (length heap - c)%nat ltac:(lia) (<[pos := item]> heap) c)
      as (heap' & pos' & Heq & Hlen & Hpos' & Hleaf & Hinv' & Hperm).
    - by rewrite length_insert.
    - by rewrite length_insert.
    - by eapply sift_inv_move.
    - rewrite length_insert in Heq, Hlen, Hpos', Hleaf.
      exists heap', pos'. split_and!; try done.
      intros x. rewrite Hperm.
      rewrite <- (list_insert_insert_eq heap pos item x).
      apply Permutation_insert_swap.
      + by rewrite list_lookup_insert_eq.
      + rewrite list_lookup_insert_ne by lia. done. }
  destruct (getitem_Ok heap (2 * pos + 1)) as (l & Hl & Hgl); [done|].
  unfold right_child_not_larger.
  destruct (decide (2 * pos + 1 + 1 < length heap)%nat) as [Hright|Hnoright].
  - destruct (getitem_Ok heap (2 * pos + 1 + 1)) as (r & Hr & Hgr); [done|].
    rewrite Hgl, Hgr. result_simpl.
    destruct (tuple_lt l r) eqn:Hcmp; result_simpl.
    + rewrite Hgl, setitem_Ok by done.
      apply Hstep; [apply parent_left|lia|done..|].
      intros i other Hi Hpi Hne Hother.
      destruct (parent_children i Hi) as [Hi'|Hi']; rewrite Hpi in Hi';
        [lia|]. subst i. simplify_eq. by apply tuple_lt_le.
    + rewrite Hgr, setitem_Ok by done.
      apply Hstep; [apply parent_right|lia|done..|].
      intros i other Hi Hpi Hne Hother.
      destruct (parent_children i Hi) as [Hi'|Hi']; rewrite Hpi in Hi';
        [|lia]. subst i. by simplify_eq.
  - result_simpl. rewrite Hgl, setitem_Ok by done.
    apply Hstep; [apply parent_left|lia|done..|].
    intros i other Hi Hpi Hne Hother.
    pose proof (lookup_lt_Some _ _ _ Hother).
    destruct (parent_children i Hi) as [Hi'|Hi']; rewrite Hpi in Hi'; lia.
Qed.

(** [_siftup] from the root returns an ordered heap with the same items. *)
Lemma siftup_ordered (heap : list order) :
  (0 < length heap)%nat → sift_inv heap 0 →
  ∃ heap', _siftup heap 0 = Ok heap' ∧ heap' ≡ₚ heap ∧ heap_ordered heap'.
Proof.
  intros Hlen Hinv. unfold _siftup.
  destruct (getitem_Ok heap 0 Hlen) as (newitem & Hnew & ->).
  destruct (siftup_loop_leaf _ heap 0%nat eq_refl Hlen Hinv)
    as (heap1 & pos1 & -> & Hlen1 & Hpos1 & Hleaf & Hinv1 & Hperm).
  result_simpl. rewrite setitem_Ok by lia. unfold _siftdown.
  result_simpl. unfold getitem.
  rewrite list_lookup_insert_eq by lia.
  destruct (siftdown_loop_ordered pos1 (<[pos1 := newitem]> heap1) newitem)
    as (heap' & -> & Hperm' & Hord).
  - rewrite length_insert. lia.
  - assert (Hnochild : ∀ i (child : order), (0 < i)%nat → parent i = pos1 →
              <[pos1 := newitem]> heap1 !! i = Some child → False).
    { intros i child Hi Hpi Hc.
      pose proof (lookup_lt_Some _ _ _ Hc) as Hlt.
      rewrite length_insert in Hlt.
      pose proof (parent_children i Hi). lia. }
    split.
    + intros i child par Hi Hne Hc Hp.
      destruct (decide (parent i = pos1)) as [Heq|Hne'];
        [by destruct (Hnochild i child)|].
      rewrite list_lookup_insert_ne in Hc by lia.
      rewrite list_lookup_insert_ne in Hp by lia.
      by apply (sift_others _ _ Hinv1 i).
    + intros i child Hi Hpi Hc. by destruct (Hnochild i child).
    + intros i child grand Hi Hpi _ Hc _. by destruct (Hnochild i child).
  - exists heap'. split_and!; [done| |done].
    rewrite Hperm', list_insert_insert_eq, Hperm.
    by rewrite list_insert_id.
Qed.

(** [heappop] on a non-empty ordered heap returns the root and leaves an
    ordered heap with the other items. *)
Lemma heappop_ordered (heap : list order) :
  heap_ordered heap → heap ≠ [] →
  ∃ item heap', heappop heap = Ok (item, heap') ∧ heap !! 0%nat = Some item ∧
                heap ≡ₚ item :: heap' ∧ heap_ordered heap'.
Proof.
  intros Hord Hne. unfold heappop.
  destruct heap as [|lastelt prefix _] using rev_ind; [done|].
  rewrite last_snoc, removelast_last.
  destruct prefix as [|returnitem rest].
  - exists lastelt, []. split_and!; [done..|]. intros i ? ? _ Hi. by destruct i.
  - rewrite setitem_Ok by (simpl; lia). result_simpl.
    destruct (siftup_ordered (<[0%nat := lastelt]> (returnitem :: rest)))
      as (heap' & -> & Hperm & Hord').
    + rewrite length_insert. simpl. lia.
    + split; [|intros; lia].
      intros i child par Hi _ Hpi Hc Hp.
      pose proof (lookup_lt_Some _ _ _ Hc) as Hlt.
      rewrite length_insert in Hlt. pose proof (parent_lt i Hi).
      rewrite list_lookup_insert_ne in Hc by lia.
      rewrite list_lookup_insert_ne in Hp by lia.
      apply (Hord i); [done|by rewrite lookup_app_l|].
      rewrite lookup_app_l; [done|lia].
    + exists returnitem, heap'. split_and!; [done..| |done].
      rewrite Hperm. simpl.
      apply perm_skip. symmetry. apply Permutation_cons_append.
Qed.

(** ** The catalog *)

(** [_get_product_by_id] returns [None] exactly when no row has the id. *)
Lemma _get_product_by_id_None (catalog : list product) (id : Z) :
  _get_product_by_id catalog id = None ↔
  ∀ p, p ∈ catalog → product_id_of p ≠ id.
Proof.
  induction catalog as [|q catalog IH]; simpl.
  - split; [|done]. intros _ p Hp. by apply elem_of_nil in Hp.
  - case_decide as Hq.
    + split; [done|]. intros H. destruct (H q); [by left|done].
    + rewrite IH. split.
      * intros H p [->|Hp]%elem_of_cons; [done|by apply H].
      * intros H p Hp. apply H. by right.
Qed.

(** Dropping the rows of one id does not change the lookup of another. *)
Lemma _get_product_by_id_other (catalog : list product) (pid id : Z) :
  id ≠ pid →
  _get_product_by_id (rows_other_than pid catalog) id
  = _get_product_by_id catalog id.
Proof.
  intros Hne. unfold rows_other_than.
  induction catalog as [|q catalog IH]; [done|].
  rewrite filter_cons. simpl. case_decide as Hq; simpl.
  - by rewrite IH.
  - case_decide; [congruence|done].
Qed.

(** ** The operations, outcome by outcome *)

(** [add_new_product], outcome by outcome. *)
Lemma add_new_product_spec (name category : string) (price_entry : option Q)
    (stock_entry : option Z) (now : datetime) (w : world) :
  add_new_product name category price_entry stock_entry now w =
  match price_entry, stock_entry with
  | Some price, Some stock =>
      match py_max (product_id_of <$> inventory w) with
      | Ok largest =>
          let new_id := largest + 1 in
          (transactions_append
             (TransactionRecord now new_id "initial stock" stock)
             (inventory_append (Product new_id name category price stock) w),
           Ok (SuccessfullyAdded name new_id))
      | Raise _ => (w, Ok InvalidPriceOrStock)
      end
  | _, _ => (w, Ok InvalidPriceOrStock)
  end.
Proof.
  unfold add_new_product.
  destruct price_entry as [price|]; [|done].
  destruct stock_entry as [stock|]; [|done].
  M_simpl. destruct (py_max (product_id_of <$> inventory w)) as [largest|e] eqn:E.
  - done.
  - by apply py_max_Raise in E as [_ ->].
Qed.

(** [place_order], outcome by outcome; [heap] is what [heappush] returns for
    the order. *)
Lemma place_order_spec (product_id_entry quantity_entry : option Z)
    (now : datetime) (w : world) :
  ∃ heap,
  heappush (backorder_queue w)
    (int_timestamp now, default 0 product_id_entry, default 0 quantity_entry)
    = Ok heap ∧
  place_order product_id_entry quantity_entry now w =
  match product_id_entry with
  | None => (w, Ok InvalidInput)
  | Some product_id =>
      match _get_product_by_id (inventory w) product_id with
      | None => (w, Ok ProductNotFound)
      | Some product =>
          match quantity_entry with
          | None => (w, Ok InvalidInput)
          | Some quantity =>
              let order := (int_timestamp now, product_id, quantity) in
              if bool_decide (product_stock product >= quantity)
              then (order_queue_append order w, Ok SufficientStock)
              else (backorder_queue_set heap w, Ok InsufficientStock)
          end
      end
  end.
Proof.
  destruct (heappush_total (backorder_queue w)
    (int_timestamp now, default 0 product_id_entry, default 0 quantity_entry))
    as (heap & Hpush & _).
  exists heap. split; [done|].
  unfold place_order.
  destruct product_id_entry as [product_id|]; [|done]. M_simpl.
  destruct (_get_product_by_id (inventory w) product_id) as [product|]; [|done].
  destruct quantity_entry as [quantity|]; [|done]. M_simpl.
  case_bool_decide; [done|]. M_simpl. cbn in Hpush. by rewrite Hpush.
Qed.

(** [place_order] leaves the catalog as it is. *)
Lemma place_order_inventory (product_id_entry quantity_entry : option Z)
    (now : datetime) (w : world) :
  inventory (place_order product_id_entry quantity_entry now w).1 = inventory w.
Proof.
  destruct (place_order_spec product_id_entry quantity_entry now w)
    as (heap & _ & ->).
  repeat case_match; done.
Qed.

(** [place_order] leaves the ledger as it is. *)
Lemma place_order_ledger (product_id_entry quantity_entry : option Z)
    (now : datetime) (w : world) :
  ledger (place_order product_id_entry quantity_entry now w).1 = ledger w.
Proof.
  destruct (place_order_spec product_id_entry quantity_entry now w)
    as (heap & _ & ->).
  repeat case_match; done.
Qed.

(** [place_order] keeps the backorder queue an ordered heap. *)
Lemma place_order_heap_ordered (product_id_entry quantity_entry : option Z)
    (now : datetime) (w : world) :
  heap_ordered (backorder_queue w) →
  heap_ordered
    (backorder_queue (place_order product_id_entry quantity_entry now w).1).
Proof.
  intros Hord.
  destruct (place_order_spec product_id_entry quantity_entry now w)
    as (heap & Hpush & ->).
  destruct (heappush_ordered _
    (int_timestamp now, default 0 product_id_entry, default 0 quantity_entry)
    Hord) as (heap' & Hpush' & _ & Hord').
  rewrite Hpush in Hpush'. injection Hpush' as <-.
  repeat case_match; done.
Qed.

(** [add_new_product] leaves both queues as they are. *)
Lemma add_new_product_queues (name category : string) (price_entry : option Q)
    (stock_entry : option Z) (now : datetime) (w : world) :
  let w' := (add_new_product name category price_entry stock_entry now w).1 in
  order_queue w' = order_queue w ∧ backorder_queue w' = backorder_queue w.
Proof.
  rewrite add_new_product_spec. repeat case_match; done.
Qed.

(** The world a call leaves. *)
Lemma perform_world (c : call) (now : datetime) (w : world) :
  (perform c now w).1 =
  match c with
  | AddNewProduct name category price_entry stock_entry =>
      (add_new_product name category price_entry stock_entry now w).1
  | PlaceOrder product_id_entry quantity_entry =>
      (place_order product_id_entry quantity_entry now w).1
  | AddTransaction product_id description quantity_change =>
      transactions_append
        (TransactionRecord now product_id description quantity_change) w
  end.
Proof.
  destruct c as [name category price_entry stock_entry
                |product_id_entry quantity_entry|]; simpl; M_simpl.
  - by destruct (add_new_product _ _ _ _ _ _) as [w' [printed|e]].
  - by destruct (place_order _ _ _ _) as [w' [printed|e]].
  - done.
Qed.

(** ** Runs *)

(** Every call keeps the backorder queue an ordered heap. *)
Lemma step_heap_ordered (w : world) (c : call * datetime) :
  heap_ordered (backorder_queue w) → heap_ordered (backorder_queue (step w c)).
Proof.
  intros Hord. unfold step. rewrite perform_world.
  destruct c as [[name category price_entry stock_entry
                 |product_id_entry quantity_entry|] now]; simpl.
  - by rewrite (proj2 (add_new_product_queues _ _ _ _ _ _)).
  - by apply place_order_heap_ordered.
  - done.
Qed.

(** Every run keeps the backorder queue an ordered heap. *)
Lemma run_heap_ordered (calls : list (call * datetime)) :
  ∀ w, heap_ordered (backorder_queue w) →
       heap_ordered (backorder_queue (run w calls)).
Proof.
  unfold run. induction calls as [|c calls IH]; intros w Hord; [done|].
  simpl. apply IH. by apply step_heap_ordered.
Qed.

(** A call that assigns an id is a call of [add_new_product] with numeric
    entries; the id is one more than the largest id of the catalog, and the
    call appends one row and one ledger entry. *)
Lemma perform_assigned_id (c : call) (now : datetime) (w : world) (id : Z) :
  assigned_id (perform c now w) = Some id →
  max_id_plus_one (inventory w) id ∧
  ∃ name category price stock,
    c = AddNewProduct name category (Some price) (Some stock) ∧
    inventory (perform c now w).1
      = inventory w ++ [Product id name category price stock] ∧
    ledger (perform c now w).1
      = ledger w ++ [TransactionRecord now id "initial stock" stock].
Proof.
  unfold assigned_id.
  destruct c as [name category price_entry stock_entry
                |product_id_entry quantity_entry|]; simpl; M_simpl.
  - rewrite add_new_product_spec.
    destruct price_entry as [price|]; [|done].
    destruct stock_entry as [stock|]; [|done].
    destruct (py_max (product_id_of <$> inventory w)) as [largest|e] eqn:Hmax;
      [|done].
    simpl. intros [= <-].
    destruct (inventory w) as [|first rest] eqn:Hinv; [done|].
    destruct (py_max_Ok (product_id_of <$> first :: rest)) as
      (best & Hbest & Hin & Hle); [done|].
    rewrite Hmax in Hbest. injection Hbest as <-.
    split; [|by exists name, category, price, stock].
    split.
    + apply list_elem_of_fmap in Hin as (p & -> & Hp).
      exists p. split; [done|lia].
    + intros p Hp.
      pose proof (Hle (product_id_of p) (list_elem_of_fmap_2 _ _ _ Hp)). lia.
  - destruct (place_order_spec product_id_entry quantity_entry now w)
      as (heap & _ & ->).
    repeat case_match; simpl in *; by simplify_eq.
  - done.
Qed.

(** A call either leaves the catalog, or appends the row of the id it
    assigns. *)
Lemma perform_inventory (c : call) (now : datetime) (w : world) :
  inventory (perform c now w).1 = inventory w ∧
    assigned_id (perform c now w) = None
  ∨ ∃ id p, assigned_id (perform c now w) = Some id ∧ product_id_of p = id ∧
            inventory (perform c now w).1 = inventory w ++ [p].
Proof.
  destruct (assigned_id (perform c now w)) as [id|] eqn:Hid.
  - right. apply perform_assigned_id in Hid
      as (_ & name & category & price & stock & _ & Hinv & _).
    by exists id, (Product id name category price stock).
  - left. split; [|done]. revert Hid. unfold assigned_id.
    destruct c as [name category price_entry stock_entry
                  |product_id_entry quantity_entry|]; simpl; M_simpl.
    + rewrite add_new_product_spec.
      destruct price_entry, stock_entry; try done.
      by destruct (py_max _).
    + intros _. pose proof (place_order_inventory product_id_entry
                              quantity_entry now w) as Hinv.
      by destruct (place_order _ _ _ _) as [w' [printed|e]].
    + done.
Qed.

(** The ids assigned along a run exceed every id of the catalog the run
    starts from, and increase strictly. *)
Lemma assigned_ids_above (calls : list (call * datetime)) :
  ∀ w,
  Forall (fun id => ∀ p, p ∈ inventory w → product_id_of p < id)
         (assigned_ids w calls) ∧
  StronglySorted Z.lt (assigned_ids w calls).
Proof.
  induction calls as [|[c now] calls IH]; intros w; simpl.
  - split; constructor.
  - destruct (perform_inventory c now w)
      as [[Hinv ->]|(id & p & Hid & Hp & Hinv)].
    + destruct (IH (perform c now w).1) as [Habove Hsorted].
      by rewrite Hinv in Habove.
    + rewrite Hid.
      destruct (perform_assigned_id _ _ _ _ Hid) as [[_ Hmax] _].
      destruct (IH (perform c now w).1) as [Habove Hsorted].
      rewrite Hinv in Habove. split.
      * constructor.
        -- intros q Hq. pose proof (Hmax q Hq). lia.
        -- eapply Forall_impl; [done|]. simpl. intros id' Hid' q Hq.
           apply Hid', elem_of_app. by left.
      * constructor; [done|].
        eapply Forall_impl; [done|]. simpl. intros id' Hid'.
        rewrite <- Hp. apply Hid', elem_of_app. right. by left.
Qed.

(** A catalog that is not empty stays so. *)
Lemma run_inventory_nonempty (calls : list (call * datetime)) :
  ∀ w, inventory w ≠ [] → inventory (run w calls) ≠ [].
Proof.
  unfold run. induction calls as [|[c now] calls IH]; intros w Hne; [done|].
  simpl. apply IH. unfold step. simpl.
  destruct (perform_inventory c now w) as [[-> _]|(id & p & _ & _ & ->)];
    [done|].
  by destruct (inventory w).
Qed.

(** A call leaves the ledger or appends one entry to it. *)
Lemma perform_ledger (c : call) (now : datetime) (w : world) :
  ledger (perform c now w).1 = ledger w ∨
  ∃ entry, ledger (perform c now w).1 = ledger w ++ [entry].
Proof.
  rewrite perform_world.
  destruct c as [name category price_entry stock_entry
                |product_id_entry quantity_entry
                |pid description quantity]; simpl.
  - rewrite add_new_product_spec.
    destruct price_entry, stock_entry; try (by left).
    destruct (py_max _); [right; by eexists|by left].
  - left. apply place_order_ledger.
  - right. by eexists.
Qed.

(** The ledger a run starts from is a prefix of the ledger it ends with. *)
Lemma run_ledger_prefix (calls : list (call * datetime)) :
  ∀ w, ledger w `prefix_of` ledger (run w calls).
Proof.
  unfold run. induction calls as [|[c now] calls IH]; intros w; [done|].
  simpl. etrans; [|apply IH]. unfold step. simpl.
  destruct (perform_ledger c now w) as [->|[entry ->]]; [done|].
  by apply prefix_app_r.
Qed.

(** Order ids do not decrease while the clock does not (after the epoch). *)
Lemma int_timestamp_mono (earlier later : datetime) :
  0 <= earlier <= later → int_timestamp earlier <= int_timestamp later.
Proof.
  intros Hle. unfold int_timestamp.
  rewrite !Z.quot_div_nonneg by lia. apply Z.div_le_mono; lia.
Qed.

(** ** Composite cost *)

Section cost.
Context (index : gmap Z (list Z)) (catalog : list product).

(** A cost returned under a limit on nested calls is returned under any
    larger limit. *)
Lemma calculate_composite_cost_mono (limit : nat) :
  ∀ limit' pid cost, (limit ≤ limit')%nat →
  calculate_composite_cost index catalog limit pid = Ok cost →
  calculate_composite_cost index catalog limit' pid = Ok cost.
Proof.
  induction limit as [|limit IH]; intros limit' pid cost Hle; [done|].
  destruct limit' as [|limit']; [lia|]. simpl.
  destruct (index !! pid) as [parts|]; [|done].
  rewrite !sum_generator_Ok. intros (values & Hvalues & ->).
  exists values. split; [|done].
  eapply Forall2_impl; [done|]. intros part value. apply IH. lia.
Qed.

(** Costs returned for the parts are all returned under one limit. *)
Lemma cost_is_common_limit (parts : list Z) (costs : list Q) :
  Forall2 (cost_is index catalog) parts costs →
  ∃ limit, Forall2 (fun part cost =>
             calculate_composite_cost index catalog limit part = Ok cost)
           parts costs.
Proof.
  induction 1 as [|part cost parts costs [limit1 Hpart] _ [limit2 Hparts]].
  - by exists 0%nat.
  - exists (limit1 `max` limit2)%nat. constructor.
    + eapply calculate_composite_cost_mono; [|done]. lia.
    + eapply Forall2_impl; [done|]. intros part' cost'.
      apply calculate_composite_cost_mono. lia.
Qed.

(** The cost returned does not depend on the limit. *)
Lemma cost_is_unique (pid : Z) (cost cost' : Q) :
  cost_is index catalog pid cost → cost_is index catalog pid cost' →
  cost = cost'.
Proof.
  intros [limit H] [limit' H'].
  apply (calculate_composite_cost_mono _ (limit `max` limit')%nat) in H;
    [|lia].
  apply (calculate_composite_cost_mono _ (limit `max` limit')%nat) in H';
    [|lia].
  congruence.
Qed.

(** The cost of a composite id is the sum of the costs of its parts. *)
Lemma cost_is_composite (pid : Z) (parts : list Z) (cost : Q) :
  index !! pid = Some parts →
  cost_is index catalog pid cost ↔
  ∃ costs, Forall2 (cost_is index catalog) parts costs ∧ cost = py_sum costs.
Proof.
  intros Hparts. split.
  - intros [[|limit] Hcost]; [done|]. simpl in Hcost.
    rewrite Hparts in Hcost. apply sum_generator_Ok in Hcost
      as (costs & Hcosts & ->).
    exists costs. split; [|done].
    eapply Forall2_impl; [done|]. intros part c Hc. by exists limit.
  - intros (costs & Hcosts & ->).
    apply cost_is_common_limit in Hcosts as [limit Hcosts].
    exists (S limit). simpl. rewrite Hparts.
    apply sum_generator_Ok. by exists costs.
Qed.

End cost.

(** The cost of an id that is no composite key: the price of its row, or 0. *)
Lemma calculate_composite_cost_leaf (index : gmap Z (list Z))
    (catalog : list product) (limit : nat) (pid : Z) :
  index !! pid = None →
  calculate_composite_cost index catalog (S limit) pid =
  Ok (match _get_product_by_id catalog pid with
      | Some product => product_price product
      | None => 0%Q
      end).
Proof. intros Hpid. simpl. rewrite Hpid. by case_match. Qed.

(** With the program's composite index the cost of every id is returned,
    whatever the catalog, once two nested calls are allowed. *)
Lemma calculate_composite_cost_returns (catalog : list product) (limit : nat)
    (pid : Z) :
  ∃ cost,
    calculate_composite_cost COMPOSITE_PRODUCTS catalog (S (S limit)) pid
    = Ok cost.
Proof.
  destruct (decide (pid = 901)) as [->|Hne].
  - change (calculate_composite_cost COMPOSITE_PRODUCTS catalog
              (S (S limit)) 901)
      with (sum_generator
              (calculate_composite_cost COMPOSITE_PRODUCTS catalog (S limit))
              [101; 102; 103] 0%Q).
    cbn [sum_generator].
    rewrite !calculate_composite_cost_leaf by done. by eexists.
  - rewrite calculate_composite_cost_leaf; [by eexists|].
    unfold COMPOSITE_PRODUCTS. by rewrite lookup_singleton_ne.
Qed.

(** With [pid] a composite key, the cost of every id is the same on two
    catalogs that differ only in rows of id [pid]. *)
Lemma calculate_composite_cost_other_rows (index : gmap Z (list Z))
    (catalog catalog' : list product) (pid : Z) :
  is_Some (index !! pid) →
  rows_other_than pid catalog = rows_other_than pid catalog' →
  ∀ limit id,
    calculate_composite_cost index catalog limit id
    = calculate_composite_cost index catalog' limit id.
Proof.
  intros [parts Hpid] Hrows.
  induction limit as [|limit IH]; intros id; [done|]. simpl.
  destruct (index !! id) as [parts'|] eqn:Hid.
  - by apply sum_generator_ext.
  - assert (id ≠ pid) as Hne by congruence.
    rewrite <- (_get_product_by_id_other catalog pid id Hne).
    rewrite <- (_get_product_by_id_other catalog' pid id Hne).
    by rewrite Hrows.
Qed.

(** * The claims *)

(** C1.  For a known product with stock [S] and an order of quantity [Q],
    [place_order] appends the tuple [(order_id, product_id, quantity)] at
    the tail of the order queue if and only if [S >= Q], and pushes the same
    tuple onto the backorder queue if and only if not [S >= Q]; exactly one
    of the two queues gains the tuple and the other is left as it was. *)
Theorem place_order_routing (w : world) (product : product)
    (pid quantity : Z) (now : datetime) :
  _get_product_by_id (inventory w) pid = Some product →
  let order := (int_timestamp now, pid, quantity) in
  let outcome := place_order (Some pid) (Some quantity) now w in
  let w' := outcome.1 in
  (order_queue w' = order_queue w ++ [order]
     ↔ product_stock product >= quantity) ∧
  (backorder_queue w' ≡ₚ order :: backorder_queue w
     ↔ ¬ product_stock product >= quantity) ∧
  (order_queue w' = order_queue w ++ [order] ∧
     backorder_queue w' = backorder_queue w ∧ outcome.2 = Ok SufficientStock
   ∨ order_queue w' = order_queue w ∧
     backorder_queue w' ≡ₚ order :: backorder_queue w ∧
     outcome.2 = Ok InsufficientStock).
Proof.
  intros Hfound order outcome w'. subst outcome w'.
  destruct (place_order_spec (Some pid) (Some quantity) now w)
    as (heap & Hpush & ->).
  destruct (heappush_total (backorder_queue w) order) as (heap' & Hpush' & Hperm).
  simpl in Hpush. fold order in Hpush.
  rewrite Hpush in Hpush'. injection Hpush' as <-.
  rewrite Hfound. cbn zeta. fold order.
  case_bool_decide as Hstock; simpl.
  - split_and!; [done| |by left].
    split; [|done]. intros Hlen%Permutation_length. simpl in Hlen. lia.
  - split_and!; [|done|by right].
    split; [|done]. intros Hlen%(f_equal length).
    rewrite length_app in Hlen. simpl in Hlen. lia.
Qed.

(** An order of 30 Office Chairs, 30 in stock, goes to the order queue. *)
Lemma place_order_routing_witness :
  let w := initial_world (fun _ => 0) in
  order_queue (place_order (Some 201) (Some 30) 7000000 w).1 = [(7, 201, 30)].
Proof.
  pose proof (place_order_routing (initial_world (fun _ => 0))
                (Product 201 "Office Chair" "Furniture" 150.00 30)
                201 30 7000000 eq_refl) as (Hqueue & _).
  apply Hqueue. simpl. lia.
Defined.

(** C2.  The backorder queue is ordered by the lexicographic order of
    [(order_id, product_id, quantity)]: [<] on order tuples is that order;
    the queue is an ordered heap after every run of the program and after
    every call made on an ordered heap; and on a non-empty ordered heap
    [pop_min] returns the root, which [peek_min] returns too, no tuple of the
    queue is lexicographically smaller than it, and the rest is an ordered
    heap of the other tuples.  In particular, after two insufficient-stock
    orders with order ids 5 and 3, [pop_min] returns the one with id 3, and
    then the one with id 5. *)
Theorem backorder_queue_pop_min :
  (∀ a b, tuple_lt a b = true ↔ lex_lt a b) ∧
  (∀ clock calls,
     heap_ordered (backorder_queue (run (initial_world clock) calls))) ∧
  (∀ w c, heap_ordered (backorder_queue w) →
          heap_ordered (backorder_queue (step w c))) ∧
  (∀ heap, heap_ordered heap → heap ≠ [] →
     ∃ item rest,
       pop_min heap = Ok (item, rest) ∧ peek_min heap = Ok item ∧
       heap ≡ₚ item :: rest ∧
       (∀ other, other ∈ heap → ¬ lex_lt other item) ∧
       heap_ordered rest) ∧
  (∀ clock,
     let w0 := initial_world clock in
     let w1 := (place_order (Some 201) (Some 31) 5000000 w0).1 in
     let w2 := (place_order (Some 202) (Some 101) 3000000 w1).1 in
     order_queue w2 = [] ∧
     pop_min (backorder_queue w2) = Ok ((3, 202, 101), [(5, 201, 31)]) ∧
     pop_min [(5, 201, 31)] = Ok ((5, 201, 31), [])).
Proof.
  split_and!.
  - apply tuple_lt_lex.
  - intros clock calls. apply run_heap_ordered, heap_ordered_nil.
  - apply step_heap_ordered.
  - intros heap Hord Hne.
    destruct (heappop_ordered heap Hord Hne)
      as (item & rest & Hpop & Hroot & Hperm & Hrest).
    exists item, rest. split_and!; [done| |done| |done].
    + unfold peek_min, getitem. by rewrite Hroot.
    + intros other [i Hi]%list_elem_of_lookup.
      apply tuple_le_not_lex.
      by apply (heap_ordered_root heap item Hord Hroot i).
  - intros clock. by vm_compute.
Qed.

(** On a heap of three orders, two of them with the same order id and
    product id, [pop_min] returns the one with the smaller quantity. *)
Lemma backorder_queue_pop_min_witness :
  ∃ rest, pop_min [(3, 202, 101); (5, 201, 31); (3, 202, 102)]
          = Ok ((3, 202, 101), rest).
Proof.
  destruct backorder_queue_pop_min as (_ & _ & _ & Hpop & _).
  destruct (Hpop [(3, 202, 101); (5, 201, 31); (3, 202, 102)])
    as (item & rest & Heq & _); [|done|].
  - by apply is_heap_spec.
  - exists rest. rewrite Heq. vm_compute in Heq. by simplify_eq.
Defined.

(** C3.  For a composite product id, the cost returned is the sum of the
    costs returned for the parts of its component list, in both directions:
    when the cost of every part is returned, so is the cost of the composite,
    and it is their sum; and a cost returned for the composite is the sum
    of costs returned for its parts.  The cost does not depend on the limit on
    nested calls.  With the program's index every cost is returned once two
    nested calls are allowed, and on the seeded catalog the parts 101, 102
    and 103 cost 75.50, 120.00 and 90.00 and the composite 901 costs
    285.50; the running total of the three prices in binary64 arithmetic is
    that same number. *)
Theorem composite_cost_is_sum_of_parts (index : gmap Z (list Z))
    (catalog : list product) (pid : Z) (parts : list Z) :
  index !! pid = Some parts →
  (∀ costs, Forall2 (cost_is index catalog) parts costs →
            cost_is index catalog pid (py_sum costs)) ∧
  (∀ cost, cost_is index catalog pid cost →
           ∃ costs, Forall2 (cost_is index catalog) parts costs ∧
                    cost = py_sum costs) ∧
  (∀ cost cost', cost_is index catalog pid cost →
                 cost_is index catalog pid cost' → cost = cost') ∧
  (∀ catalog' pid' limit, ∃ cost,
     calculate_composite_cost COMPOSITE_PRODUCTS catalog' (S (S limit)) pid'
       = Ok cost) ∧
  (∀ limit, ∃ cost,
     calculate_composite_cost COMPOSITE_PRODUCTS INVENTORY (S (S limit)) 901
       = Ok cost ∧
     (cost == 285.50)%Q ∧
     Forall2 (cost_is COMPOSITE_PRODUCTS INVENTORY)
             [101; 102; 103] [75.50; 120.00; 90.00]%Q ∧
     Forall2 denotes [75.50; 120.00; 90.00]%float [75.50; 120.00; 90.00]%Q ∧
     denotes (binary64_sum [75.50; 120.00; 90.00]%float) cost).
Proof.
  intros Hparts. split_and!.
  - intros costs Hcosts. apply (cost_is_composite _ _ _ _ _ Hparts). eauto.
  - intros cost Hcost. by apply (cost_is_composite _ _ _ _ _ Hparts).
  - apply cost_is_unique.
  - intros catalog' pid' limit. apply calculate_composite_cost_returns.
  - intros limit. eexists. split_and!.
    + simpl. reflexivity.
    + by vm_compute.
    + repeat constructor; by exists 1%nat.
    + repeat constructor; eexists; (split; [by vm_compute|by vm_compute]).
    + eexists. split; [by vm_compute|by vm_compute].
Qed.

(** The cost of 901 on the seeded data is the sum of the three prices. *)
Lemma composite_cost_is_sum_of_parts_witness :
  cost_is COMPOSITE_PRODUCTS INVENTORY 901 (py_sum [75.50; 120.00; 90.00]%Q).
Proof.
  destruct (composite_cost_is_sum_of_parts COMPOSITE_PRODUCTS INVENTORY 901
              [101; 102; 103] eq_refl) as (Hsum & _).
  apply Hsum. repeat constructor; by exists 1%nat.
Defined.

(** C4.  Along every sequence of calls from a world whose catalog is not
    empty, the product ids assigned increase strictly and exceed every id of
    the catalog the sequence starts from; each assigned id is one more than
    the largest id of the catalog at the time of the call; and every call of
    [add_new_product] with numeric entries assigns an id, appending the row
    and its ledger entry. *)
Theorem assigned_ids_increase (w : world) (calls : list (call * datetime)) :
  inventory w ≠ [] →
  StronglySorted Z.lt (assigned_ids w calls) ∧
  Forall (fun id => ∀ p, p ∈ inventory w → product_id_of p < id)
         (assigned_ids w calls) ∧
  (∀ before c now after id,
     calls = before ++ (c, now) :: after →
     assigned_id (perform c now (run w before)) = Some id →
     max_id_plus_one (inventory (run w before)) id) ∧
  (∀ before name category price stock now after,
     calls = before ++
       (AddNewProduct name category (Some price) (Some stock), now) :: after →
     ∃ id,
       add_new_product name category (Some price) (Some stock) now
         (run w before)
       = (World (inventory (run w before) ++
                   [Product id name category price stock])
                (ledger (run w before) ++
                   [TransactionRecord now id "initial stock" stock])
                (order_queue (run w before))
                (backorder_queue (run w before)),
          Ok (SuccessfullyAdded name id))).
Proof.
  intros Hne.
  destruct (assigned_ids_above calls w) as [Habove Hsorted].
  split_and!; [done..| |].
  - intros before c now after id _ Hid.
    by apply perform_assigned_id in Hid as [Hmax _].
  - intros before name category price stock now after _.
    rewrite add_new_product_spec.
    destruct (py_max_Ok (product_id_of <$> inventory (run w before)))
      as (largest & -> & _).
    { pose proof (run_inventory_nonempty before w Hne) as Hrun.
      by destruct (inventory (run w before)). }
    by exists (largest + 1).
Qed.

(** Two products added to the seeded catalog get the ids 902 and 903. *)
Lemma assigned_ids_increase_witness :
  assigned_ids (initial_world (fun _ => 0))
    [(AddNewProduct "Monitor" "Electronics" (Some 199.99%Q) (Some 5), 10);
     (PlaceOrder (Some 902) (Some 9), 20);
     (AddNewProduct "Stool" "Furniture" None (Some 5), 30);
     (AddNewProduct "Stool" "Furniture" (Some 20%Q) (Some 5), 40)]
  = [902; 903] ∧
  StronglySorted Z.lt [902; 903].
Proof.
  split; [by vm_compute|].
  refine (proj1 (assigned_ids_increase (initial_world (fun _ => 0))
    [(AddNewProduct "Monitor" "Electronics" (Some 199.99%Q) (Some 5), 10);
     (PlaceOrder (Some 902) (Some 9), 20);
     (AddNewProduct "Stool" "Furniture" None (Some 5), 30);
     (AddNewProduct "Stool" "Furniture" (Some 20%Q) (Some 5), 40)] _)).
  done.
Defined.

(** C5.  The ledger is append-only.  [add_transaction] appends exactly its
    record and changes nothing else; a successful [add_new_product] appends
    exactly one record, with description "initial stock" and the initial
    stock as quantity change; a failed [add_new_product] and every
    [place_order] leave the ledger as it is; and along every run the ledger
    the run starts from is a prefix of the ledger it ends with, so every
    entry stays in its place, unaltered. *)
Theorem ledger_append_only :
  (∀ now pid text quantity w,
     (add_transaction now pid text quantity w).1
     = World (inventory w)
             (ledger w ++ [TransactionRecord now pid text quantity])
             (order_queue w) (backorder_queue w)) ∧
  (∀ name category price_entry stock_entry now w w' added new_id,
     add_new_product name category price_entry stock_entry now w
       = (w', Ok (SuccessfullyAdded added new_id)) →
     ∃ stock, stock_entry = Some stock ∧
       ledger w'
       = ledger w ++ [TransactionRecord now new_id "initial stock" stock]) ∧
  (∀ name category price_entry stock_entry now w,
     (add_new_product name category price_entry stock_entry now w).2
       = Ok InvalidPriceOrStock →
     ledger (add_new_product name category price_entry stock_entry now w).1
     = ledger w) ∧
  (∀ product_id_entry quantity_entry now w,
     ledger (place_order product_id_entry quantity_entry now w).1 = ledger w) ∧
  (∀ w calls, ledger w `prefix_of` ledger (run w calls)) ∧
  (∀ w calls i entry, ledger w !! i = Some entry →
                      ledger (run w calls) !! i = Some entry).
Proof.
  split_and!.
  - done.
  - intros name category price_entry stock_entry now w w' added new_id.
    rewrite add_new_product_spec.
    destruct price_entry, stock_entry; try done.
    destruct (py_max _); [|done]. intros [= <- <- <-]. by eexists.
  - intros name category price_entry stock_entry now w.
    rewrite add_new_product_spec.
    destruct price_entry, stock_entry; try done. by destruct (py_max _).
  - apply place_order_ledger.
  - intros w calls. apply run_ledger_prefix.
  - intros w calls i entry Hentry.
    by eapply prefix_lookup_Some, run_ledger_prefix.
Qed.

(** Adding a product to the seeded world makes the ledger one entry longer. *)
Lemma ledger_append_only_witness :
  let w := initial_world (fun _ => 0) in
  length (ledger (add_new_product "Monitor" "Electronics" (Some 199.99%Q)
                    (Some 5) 10 w).1)
  = S (length (ledger w)).
Proof.
  destruct ledger_append_only as (_ & Hadd & _).
  destruct (Hadd "Monitor" "Electronics" (Some 199.99%Q) (Some 5) 10
              (initial_world (fun _ => 0)) _ "Monitor" 902 eq_refl)
    as (stock & _ & Hledger).
  simpl. lia.
Defined.

(** C6, where the code falls short of it.  Two orders placed half a second
    apart, within the same second of the clock, get the same order id: the
    id of the later order is not greater than the id of the earlier one. *)
Theorem order_id_collision :
  let w0 := initial_world (fun _ => 0) in
  let earlier := 1700000000200000 in
  let later := 1700000000700000 in
  let w1 := (place_order (Some 101) (Some 1) earlier w0).1 in
  let w2 := (place_order (Some 102) (Some 2) later w1).1 in
  earlier < later ∧
  order_queue w2 = [(1700000000, 101, 1); (1700000000, 102, 2)] ∧
  ¬ int_timestamp earlier < int_timestamp later.
Proof. split_and!; [done|by vm_compute|by vm_compute]. Qed.

(** C7.  [place_order] leaves the catalog exactly as it was, whatever the
    entries and wherever the order is routed: no stock is decremented and no
    row is added, removed or modified. *)
Theorem place_order_keeps_catalog (product_id_entry quantity_entry : option Z)
    (now : datetime) (w : world) :
  inventory (place_order product_id_entry quantity_entry now w).1
  = inventory w.
Proof. apply place_order_inventory. Qed.

(** C8.  For a product id that is neither a composite key nor the id of a
    catalog row, [calculate_composite_cost] returns 0 and raises nothing; in
    particular the cost of 999 on the seeded data is 0. *)
Theorem cost_of_unknown_product_is_zero (index : gmap Z (list Z))
    (catalog : list product) (limit : nat) (pid : Z) :
  index !! pid = None →
  (∀ p, p ∈ catalog → product_id_of p ≠ pid) →
  calculate_composite_cost index catalog (S limit) pid = Ok 0%Q ∧
  calculate_composite_cost COMPOSITE_PRODUCTS INVENTORY (S limit) 999 = Ok 0%Q.
Proof.
  intros Hindex Hcatalog. split; [|done].
  rewrite calculate_composite_cost_leaf by done.
  by apply _get_product_by_id_None in Hcatalog as ->.
Qed.

(** The cost of 999 on the seeded data, from the general statement. *)
Lemma cost_of_unknown_product_is_zero_witness :
  calculate_composite_cost COMPOSITE_PRODUCTS INVENTORY 1 999 = Ok 0%Q.
Proof.
  refine (proj1 (cost_of_unknown_product_is_zero COMPOSITE_PRODUCTS INVENTORY
                   0 999 eq_refl _)).
  intros p Hp. repeat (apply elem_of_cons in Hp as [->|Hp]; [done|]).
  by apply elem_of_nil in Hp.
Defined.

(** C9.  [add_new_product] and [place_order] raise nothing and always print
    a message.  With a non-numeric price or stock entry [add_new_product]
    fails and leaves the world as it was; with a non-numeric product id,
    an unknown product id, or a non-numeric quantity for a known product,
    [place_order] fails and leaves the world as it was; and whenever either
    operation prints a failure message, the catalog, the ledger and both
    queues are exactly as before the call. *)
Theorem failed_operation_changes_nothing :
  (∀ name category price_entry stock_entry now w,
     ∃ printed,
       (add_new_product name category price_entry stock_entry now w).2
       = Ok printed) ∧
  (∀ product_id_entry quantity_entry now w,
     ∃ printed,
       (place_order product_id_entry quantity_entry now w).2 = Ok printed) ∧
  (∀ name category price_entry stock_entry now w,
     price_entry = None ∨ stock_entry = None →
     add_new_product name category price_entry stock_entry now w
     = (w, Ok InvalidPriceOrStock)) ∧
  (∀ quantity_entry now w,
     place_order None quantity_entry now w = (w, Ok InvalidInput)) ∧
  (∀ pid quantity_entry now w,
     (∀ p, p ∈ inventory w → product_id_of p ≠ pid) →
     place_order (Some pid) quantity_entry now w = (w, Ok ProductNotFound)) ∧
  (∀ pid now w p,
     p ∈ inventory w → product_id_of p = pid →
     place_order (Some pid) None now w = (w, Ok InvalidInput)) ∧
  (∀ name category price_entry stock_entry now w w' printed,
     add_new_product name category price_entry stock_entry now w
       = (w', Ok printed) →
     is_failure printed = true → w' = w) ∧
  (∀ product_id_entry quantity_entry now w w' printed,
     place_order product_id_entry quantity_entry now w = (w', Ok printed) →
     is_failure printed = true → w' = w).
Proof.
  split_and!.
  - intros. rewrite add_new_product_spec.
    repeat case_match; by eexists.
  - intros product_id_entry quantity_entry now w.
    destruct (place_order_spec product_id_entry quantity_entry now w)
      as (heap & _ & ->).
    repeat case_match; by eexists.
  - intros name category price_entry stock_entry now w Hnone.
    rewrite add_new_product_spec.
    by destruct Hnone as [-> | ->]; [|destruct price_entry].
  - done.
  - intros pid quantity_entry now w Hpid.
    destruct (place_order_spec (Some pid) quantity_entry now w)
      as (heap & _ & ->).
    by apply _get_product_by_id_None in Hpid as ->.
  - intros pid now w p Hp Hpid.
    destruct (place_order_spec (Some pid) None now w) as (heap & _ & ->).
    destruct (_get_product_by_id (inventory w) pid) eqn:Hget; [done|].
    rewrite _get_product_by_id_None in Hget. by destruct (Hget p Hp).
  - intros name category price_entry stock_entry now w w' printed.
    rewrite add_new_product_spec.
    repeat case_match; cbn zeta; by intros [= <- <-].
  - intros product_id_entry quantity_entry now w w' printed.
    destruct (place_order_spec product_id_entry quantity_entry now w)
      as (heap & _ & ->).
    repeat case_match; cbn zeta; by intros [= <- <-].
Qed.

(** Three failed calls on the seeded world, each leaving it as it was. *)
Lemma failed_operation_changes_nothing_witness :
  let w := initial_world (fun _ => 0) in
  add_new_product "Monitor" "Electronics" (Some 199.99%Q) None 10 w
    = (w, Ok InvalidPriceOrStock) ∧
  place_order (Some 999) (Some 1) 10 w = (w, Ok ProductNotFound) ∧
  place_order (Some 101) None 10 w = (w, Ok InvalidInput).
Proof.
  destruct failed_operation_changes_nothing
    as (_ & _ & Hadd & _ & Hmissing & Hquantity & _).
  split_and!.
  - apply Hadd. by right.
  - apply Hmissing. intros p Hp.
    repeat (apply elem_of_cons in Hp as [->|Hp]; [done|]).
    by apply elem_of_nil in Hp.
  - apply (Hquantity 101 10 _
             (Product 101 "Gaming Mouse" "Electronics" 75.50 80));
      [by left|done].
Defined.

(** C10.  For a product id in the composite index, the cost is the same on
    any two catalogs that have the same rows apart from rows of that id: the
    catalog entry of the composite, and its price, play no part.  In
    particular the cost of 901 on the seeded catalog is the cost on the
    catalog with the row of 901 replaced by any other row of id 901, and
    the cost on the catalog without that row. *)
Theorem composite_cost_ignores_own_row (index : gmap Z (list Z))
    (catalog catalog' : list product) (pid : Z) (limit : nat) :
  is_Some (index !! pid) →
  rows_other_than pid catalog = rows_other_than pid catalog' →
  calculate_composite_cost index catalog limit pid
    = calculate_composite_cost index catalog' limit pid ∧
  (∀ row, product_id_of row = 901 →
     calculate_composite_cost COMPOSITE_PRODUCTS
       (rows_other_than 901 INVENTORY ++ [row]) limit 901
     = calculate_composite_cost COMPOSITE_PRODUCTS INVENTORY limit 901) ∧
  calculate_composite_cost COMPOSITE_PRODUCTS (rows_other_than 901 INVENTORY)
    limit 901
  = calculate_composite_cost COMPOSITE_PRODUCTS INVENTORY limit 901.
Proof.
  intros Hpid Hrows. split_and!.
  - apply (calculate_composite_cost_other_rows index catalog catalog' pid
             Hpid Hrows).
  - intros row Hrow.
    apply (calculate_composite_cost_other_rows _ _ _ 901); [by eexists|].
    destruct row as [id name category price stock]. simpl in Hrow. subst id.
    by vm_compute.
  - apply (calculate_composite_cost_other_rows _ _ _ 901); [by eexists|].
    done.
Qed.

(** A second row for 901 with a price of 999.99 does not change its cost. *)
Lemma composite_cost_ignores_own_row_witness :
  calculate_composite_cost COMPOSITE_PRODUCTS
    (Product 901 "Gamer PC Bundle" "Composite" 999.99 10 :: INVENTORY) 2 901
  = calculate_composite_cost COMPOSITE_PRODUCTS INVENTORY 2 901.
Proof.
  refine (proj1 (composite_cost_ignores_own_row COMPOSITE_PRODUCTS _ _ 901 2
                   _ eq_refl)).
  by eexists.
Defined.

(** * The rest of the program: further properties *)

(** X1.  [_get_product_by_id] returns a row exactly when the catalog splits
    around it: the row has the id asked for and no row before it has.  With
    several rows of one id the first is the one returned. *)
Theorem _get_product_by_id_first (catalog : list product) (id : Z)
    (p : product) :
  _get_product_by_id catalog id = Some p ↔
  ∃ before after,
    catalog = before ++ p :: after ∧ product_id_of p = id ∧
    ∀ q, q ∈ before → product_id_of q ≠ id.
Proof.
  induction catalog as [|r catalog IH]; simpl.
  - split; [done|]. intros (before & after & Heq & _). by destruct before.
  - case_decide as Hr.
    + split.
      * intros [= ->]. exists [], catalog. split_and!; [done..|].
        intros q Hq. by apply elem_of_nil in Hq.
      * intros ([|b before] & after & Heq & Hid & Hbefore); simplify_eq/=;
          [done|].
        destruct (Hbefore b); [by left|done].
    + rewrite IH. split.
      * intros (before & after & -> & Hid & Hbefore).
        exists (r :: before), after. split_and!; [done..|].
        intros q [->|Hq]%elem_of_cons; [done|by apply Hbefore].
      * intros ([|b before] & after & Heq & Hid & Hbefore); simplify_eq/=.
        exists before, after. split_and!; [done..|].
        intros q Hq. apply Hbefore. by right.
Qed.

(** The lookup in a catalog with one more row, of an id not yet used. *)
Lemma _get_product_by_id_app_fresh (catalog : list product) (p : product)
    (id : Z) :
  (∀ q, q ∈ catalog → product_id_of q ≠ product_id_of p) →
  _get_product_by_id (catalog ++ [p]) id =
  if decide (id = product_id_of p) then Some p
  else _get_product_by_id catalog id.
Proof.
  intros Hfresh. induction catalog as [|r catalog IH]; simpl.
  - repeat case_decide; congruence.
  - rewrite IH by (intros q Hq; apply Hfresh; by right).
    pose proof (Hfresh r ltac:(by left)).
    repeat case_decide; congruence.
Qed.

(** X2.  A product added to a catalog that is not empty, with numeric
    entries, can be looked up at once: its id was not in the catalog before,
    the lookup of the id returns the row with the name, category, price and
    stock entered, and the lookup of every other id is as before. *)
Theorem add_new_product_then_lookup (name category : string) (price : Q)
    (stock : Z) (now : datetime) (w : world) :
  inventory w ≠ [] →
  ∃ new_id,
    let w' := (add_new_product name category (Some price) (Some stock) now
                 w).1 in
    (add_new_product name category (Some price) (Some stock) now w).2
      = Ok (SuccessfullyAdded name new_id) ∧
    _get_product_by_id (inventory w) new_id = None ∧
    _get_product_by_id (inventory w') new_id
      = Some (Product new_id name category price stock) ∧
    ∀ id, id ≠ new_id →
      _get_product_by_id (inventory w') id
      = _get_product_by_id (inventory w) id.
Proof.
  intros Hne. rewrite add_new_product_spec.
  destruct (py_max_Ok (product_id_of <$> inventory w))
    as (largest & -> & _ & Hmax); [by destruct (inventory w)|].
  exists (largest + 1). cbn zeta. simpl.
  assert (∀ q, q ∈ inventory w → product_id_of q ≠ largest + 1) as Hfresh.
  { intros q Hq.
    pose proof (Hmax _ (list_elem_of_fmap_2 product_id_of _ _ Hq)). lia. }
  split_and!; [done|by apply _get_product_by_id_None|..].
  - rewrite _get_product_by_id_app_fresh by done. by rewrite decide_True.
  - intros id Hid. rewrite _get_product_by_id_app_fresh by done.
    by rewrite decide_False.
Qed.

(** The product added to the seeded catalog is found under the id 902. *)
Lemma add_new_product_then_lookup_witness :
  _get_product_by_id
    (inventory (add_new_product "Monitor" "Electronics" (Some 199.99%Q)
                  (Some 5) 10 (initial_world (fun _ => 0))).1) 902
  = Some (Product 902 "Monitor" "Electronics" 199.99 5).
Proof.
  destruct (add_new_product_then_lookup "Monitor" "Electronics" 199.99%Q 5 10
              (initial_world (fun _ => 0))) as (new_id & Hprinted & _ & Hnew & _);
    [done|].
  vm_compute in Hprinted. injection Hprinted as <-. exact Hnew.
Defined.

(** ** Ids stay unique *)

(** A call keeps the ids unique. *)
Lemma perform_ids_NoDup (c : call) (now : datetime) (w : world) :
  NoDup (ids (inventory w)) → NoDup (ids (inventory (perform c now w).1)).
Proof.
  intros Hnodup. unfold ids in *.
  destruct (perform_inventory c now w) as [[-> _]|(id & p & Hid & Hp & ->)];
    [done|].
  apply perform_assigned_id in Hid as [[_ Hmax] _].
  rewrite fmap_app. simpl. apply NoDup_app. split_and!; [done| |].
  - intros x (q & -> & Hq)%list_elem_of_fmap [= Heq]%list_elem_of_singleton.
    pose proof (Hmax q Hq). lia.
  - apply NoDup_singleton.
Qed.

(** A sequence of calls keeps the ids unique. *)
Lemma run_ids_NoDup (calls : list (call * datetime)) (w : world) :
  NoDup (ids (inventory w)) → NoDup (ids (inventory (run w calls))).
Proof.
  revert w. unfold run.
  induction calls as [|[c now] calls IH]; intros w Hnodup; [done|].
  simpl. apply IH. by apply perform_ids_NoDup.
Qed.

(** X3.  Product ids stay unique: from a catalog without two rows of one id,
    no sequence of calls leads to a catalog with two, so two rows of the
    catalog with the same id are the same row. *)
Theorem ids_stay_unique (calls : list (call * datetime)) (w : world) :
  NoDup (ids (inventory w)) →
  NoDup (ids (inventory (run w calls))) ∧
  ∀ p q, p ∈ inventory (run w calls) → q ∈ inventory (run w calls) →
         product_id_of p = product_id_of q → p = q.
Proof.
  intros Hnodup. pose proof (run_ids_NoDup calls w Hnodup) as Hrun.
  split; [done|]. intros p q Hp Hq Heq.
  apply list_elem_of_lookup in Hp as [i Hi], Hq as [j Hj].
  assert (i = j) as ->; [|congruence].
  apply (NoDup_lookup _ i j (product_id_of p) Hrun); unfold ids;
    rewrite list_lookup_fmap; [by rewrite Hi|by rewrite Hj, Heq].
Qed.

(** The ids of the seeded catalog are unique, and stay so after two adds. *)
Lemma ids_stay_unique_witness :
  NoDup (ids (inventory
    (run (initial_world (fun _ => 0))
       [(AddNewProduct "Monitor" "Electronics" (Some 199.99%Q) (Some 5), 10);
        (AddNewProduct "Stool" "Furniture" (Some 20%Q) (Some 5), 40)]))).
Proof.
  apply ids_stay_unique. by apply (bool_decide_unpack _).
Defined.

(** ** The queues only grow *)

(** A call leaves each queue as it is or adds one order to it. *)
Lemma perform_queues (c : call) (now : datetime) (w : world) :
  let w' := (perform c now w).1 in
  (order_queue w' = order_queue w ∨ ∃ o, order_queue w' = order_queue w ++ [o])
  ∧ (backorder_queue w' = backorder_queue w ∨
     ∃ o, backorder_queue w' ≡ₚ o :: backorder_queue w).
Proof.
  cbn zeta. rewrite perform_world.
  destruct c as [name category price_entry stock_entry
                |product_id_entry quantity_entry|]; simpl.
  - destruct (add_new_product_queues name category price_entry stock_entry
                now w) as [-> ->]. by split; left.
  - destruct (place_order_spec product_id_entry quantity_entry now w)
      as (heap & Hpush & ->).
    destruct (heappush_total (backorder_queue w)
      (int_timestamp now, default 0 product_id_entry,
       default 0 quantity_entry)) as (heap' & Hpush' & Hperm).
    rewrite Hpush in Hpush'. injection Hpush' as <-.
    repeat case_match; simpl; try (by split; left).
    + split; [right; by eexists|by left].
    + split; [by left|right; by eexists].
  - by split; left.
Qed.

(** Along a sequence of calls the queues and the catalog only grow. *)
Lemma run_grows (calls : list (call * datetime)) (w : world) :
  order_queue w `prefix_of` order_queue (run w calls) ∧
  backorder_queue w ⊆+ backorder_queue (run w calls) ∧
  inventory w `prefix_of` inventory (run w calls).
Proof.
  revert w. unfold run.
  induction calls as [|[c now] calls IH]; intros w; [done|]. simpl.
  destruct (IH (step w (c, now))) as (Hqueue & Hback & Hinv).
  unfold step in *. simpl in *.
  destruct (perform_queues c now w) as [Hq Hb]. cbn zeta in Hq, Hb.
  split_and!.
  - etrans; [|exact Hqueue].
    destruct Hq as [->|[o ->]]; [done|by apply prefix_app_r].
  - etrans; [|exact Hback].
    destruct Hb as [->|[o ->]]; [done|by apply submseteq_cons].
  - etrans; [|exact Hinv].
    destruct (perform_inventory c now w) as [[-> _]|(id & p & _ & _ & ->)];
      [done|by apply prefix_app_r].
Qed.

(** X4.  Nothing ever leaves a queue or the catalog: along every sequence of
    calls the order queue and the catalog keep what they held as a prefix,
    in the same order, and the backorder queue keeps every order it held. *)
Theorem queues_only_grow (calls : list (call * datetime)) (w : world) :
  order_queue w `prefix_of` order_queue (run w calls) ∧
  backorder_queue w ⊆+ backorder_queue (run w calls) ∧
  inventory w `prefix_of` inventory (run w calls).
Proof. apply run_grows. Qed.

(** ** Order ids and the clock *)

(** X5.  Order ids follow the clock, second by second: after the epoch, a
    later clock reading never gives a smaller order id, and a reading at
    least one second later gives a strictly greater one. *)
Theorem order_ids_follow_the_clock (earlier later : datetime) :
  0 <= earlier <= later →
  int_timestamp earlier <= int_timestamp later ∧
  (earlier + 1000000 <= later → int_timestamp earlier < int_timestamp later).
Proof.
  intros Hle. split; [by apply int_timestamp_mono|].
  intros Hsecond. unfold int_timestamp.
  rewrite !Z.quot_div_nonneg by lia.
  assert ((earlier + 1 * 1000000) `div` 1000000 <= later `div` 1000000)
    by (apply Z.div_le_mono; lia).
  rewrite Z.div_add in * by lia. lia.
Qed.

(** One second later the order id is greater. *)
Lemma order_ids_follow_the_clock_witness :
  int_timestamp 1700000000200000 < int_timestamp 1700000001200000.
Proof.
  refine (proj2 (order_ids_follow_the_clock 1700000000200000
                   1700000001200000 _) _); lia.
Defined.

(** ** The total value of the report *)




(** ** A composite defined through itself *)



(** ** The ledger and the catalog in step *)

(** A call from the menu keeps the ledger in step with the catalog. *)
Lemma perform_in_step (c : call) (now : datetime) (w : world) :
  from_menu (c, now) →
  entry_of <$> ledger w = initial_stock_of <$> inventory w →
  entry_of <$> ledger (perform c now w).1
  = initial_stock_of <$> inventory (perform c now w).1.
Proof.
  intros Hmenu Hstep.
  destruct (assigned_id (perform c now w)) as [id|] eqn:Hid.
  - apply perform_assigned_id in Hid
      as (_ & name & category & price & stock & _ & -> & ->).
    rewrite !fmap_app, Hstep. done.
  - destruct (perform_inventory c now w) as [[-> _]|(? & ? & ? & _)];
      [|congruence].
    rewrite perform_world.
    destruct c as [name category price_entry stock_entry
                  |product_id_entry quantity_entry|]; simpl; [| |done].
    + revert Hid. unfold assigned_id. simpl. M_simpl.
      rewrite add_new_product_spec.
      destruct price_entry, stock_entry; try done. by destruct (py_max _).
    + by rewrite place_order_ledger.
Qed.

(** Calls from the menu keep the ledger in step with the catalog. *)
Lemma run_in_step (calls : list (call * datetime)) (w : world) :
  Forall from_menu calls →
  entry_of <$> ledger w = initial_stock_of <$> inventory w →
  entry_of <$> ledger (run w calls)
  = initial_stock_of <$> inventory (run w calls).
Proof.
  unfold run. intros Hmenu. revert w.
  induction Hmenu as [|[c now] calls Hc _ IH]; intros w Hstep; [done|].
  simpl. apply IH. by apply perform_in_step.
Qed.

(** X8.  The ledger and the catalog stay in step: when the ledger holds,
    row for row, the "initial stock" entry of each catalog row, it still
    does after any sequence of [add_new_product] and [place_order] calls,
    and the two stay of the same length. *)
Theorem ledger_and_catalog_in_step (calls : list (call * datetime))
    (w : world) :
  Forall from_menu calls →
  entry_of <$> ledger w = initial_stock_of <$> inventory w →
  entry_of <$> ledger (run w calls)
  = initial_stock_of <$> inventory (run w calls) ∧
  length (ledger (run w calls)) = length (inventory (run w calls)).
Proof.
  intros Hmenu Hstep. pose proof (run_in_step calls w Hmenu Hstep) as Hrun.
  split; [done|]. apply (f_equal length) in Hrun.
  by rewrite !length_fmap in Hrun.
Qed.

(** The seeded world is in step, and stays so after an add and an order. *)
Lemma ledger_and_catalog_in_step_witness :
  let w := run (initial_world (fun _ => 0))
             [(AddNewProduct "Monitor" "Electronics" (Some 199.99%Q) (Some 5),
               10);
              (PlaceOrder (Some 902) (Some 9), 20)] in
  entry_of <$> ledger w = initial_stock_of <$> inventory w.
Proof.
  refine (proj1 (ledger_and_catalog_in_step _ _ _ _)); [|done].
  repeat constructor.
Defined.

(** ** An empty catalog *)

(** A call on an empty catalog leaves it empty. *)
Lemma perform_empty_catalog (c : call) (now : datetime) (w : world) :
  inventory w = [] → inventory (perform c now w).1 = [].
Proof.
  intros Hempty. rewrite perform_world.
  destruct c as [name category price_entry stock_entry
                |product_id_entry quantity_entry|]; simpl; [| |done].
  - rewrite add_new_product_spec, Hempty. simpl.
    by destruct price_entry, stock_entry.
  - by rewrite place_order_inventory.
Qed.

(** X9.  An empty catalog stays empty: [max] of no ids raises [ValueError],
    so after any sequence of calls from an empty catalog,
    [add_new_product] still reports invalid entries, even for a numeric
    price and stock, and changes nothing. *)
Theorem empty_catalog_stays_empty (calls : list (call * datetime))
    (w : world) (name category : string) (price_entry : option Q)
    (stock_entry : option Z) (now : datetime) :
  inventory w = [] →
  inventory (run w calls) = [] ∧
  add_new_product name category price_entry stock_entry now (run w calls)
  = (run w calls, Ok InvalidPriceOrStock).
Proof.
  intros Hempty.
  assert (inventory (run w calls) = []) as Hrun.
  { revert w Hempty. unfold run.
    induction calls as [|[c now'] calls IH]; intros w Hempty; [done|].
    simpl. apply IH. by apply perform_empty_catalog. }
  split; [done|]. rewrite add_new_product_spec, Hrun. simpl.
  by destruct price_entry, stock_entry.
Qed.

(** A numeric add on the empty catalog is reported invalid. *)
Lemma empty_catalog_stays_empty_witness :
  add_new_product "Monitor" "Electronics" (Some 199.99%Q) (Some 5) 10
    (World [] [] [] [])
  = (World [] [] [] [], Ok InvalidPriceOrStock).
Proof.
  refine (proj2 (empty_catalog_stays_empty [] (World [] [] [] []) _ _ _ _ _
                   eq_refl)).
Defined.

(** ** The head of the backorder queue *)

(** [<=] on order tuples is antisymmetric. *)
Lemma tuple_le_antisym (a b : order) : tuple_le a b → tuple_le b a → a = b.
Proof.
  destruct a as [[a0 a1] a2], b as [[b0 b1] b2].
  intros Hab Hba. tuple_cases; try discriminate; repeat f_equal; lia.
Qed.

(** X10.  After a push onto an ordered, non-empty backorder queue, the head
    of the queue is the pushed order if it is less than the old head, and
    the old head otherwise. *)
Theorem heappush_head (heap : list order) (item root : order) :
  heap_ordered heap → heap !! 0%nat = Some root →
  ∃ heap', heappush heap item = Ok heap' ∧
           heap' !! 0%nat = Some (if tuple_lt item root then item else root).
Proof.
  intros Hord Hroot.
  destruct (heappush_ordered heap item Hord) as (heap' & Hpush & Hperm & Hord').
  exists heap'. split; [done|].
  destruct (heap' !! 0%nat) as [root'|] eqn:Hroot'.
  2:{ apply lookup_ge_None in Hroot'. apply Permutation_length in Hperm.
      simpl in Hperm. lia. }
  f_equal.
  assert (∀ x, x ∈ item :: heap → tuple_le root' x) as Hmin.
  { intros x Hx. rewrite <- Hperm in Hx.
    apply list_elem_of_lookup in Hx as [i Hi].
    by apply (heap_ordered_root heap' root' Hord' Hroot' i). }
  assert (∀ x, x ∈ heap → tuple_le root x) as Hmin_old.
  { intros x [i Hi]%list_elem_of_lookup.
    by apply (heap_ordered_root heap root Hord Hroot i). }
  assert (root' ∈ item :: heap) as Hin.
  { rewrite <- Hperm. by eapply list_elem_of_lookup_2. }
  assert (root ∈ heap) as Hroot_in by (by eapply list_elem_of_lookup_2).
  destruct (tuple_lt item root) eqn:Hlt.
  - apply elem_of_cons in Hin as [->|Hin]; [done|].
    pose proof (tuple_le_trans _ _ _ (Hmin_old _ Hin)
                  (Hmin item ltac:(by left))) as Hle.
    unfold tuple_le in Hle. congruence.
  - apply tuple_le_antisym.
    + apply Hmin. by right.
    + apply elem_of_cons in Hin as [->|Hin]; [done|by apply Hmin_old].
Qed.

(** An order with a smaller product id than the head becomes the head. *)
Lemma heappush_head_witness :
  ∃ heap', heappush [(3, 202, 101); (5, 201, 31)] (3, 101, 500) = Ok heap' ∧
           heap' !! 0%nat = Some (3, 101, 500).
Proof.
  apply (heappush_head [(3, 202, 101); (5, 201, 31)] (3, 101, 500)
           (3, 202, 101)); [by apply is_heap_spec|done].
Defined.

(** ** The loop of main *)

(** The loop of [main], one pass unfolded. *)
Lemma main_loop_pass (limit : nat) (clock : nat → datetime) (i : nat)
    (stdin : list line) (w : world) (out : list output) :
  main_loop limit clock i stdin w out =
  match main_pass limit (clock i) stdin w with
  | Continue stdin' w' printed =>
      main_loop limit clock (S i) stdin' w' (out ++ printed)
  | Break stdin' w' printed => Session None stdin' w' (out ++ printed)
  | Escape e stdin' w' printed => Session (Some e) stdin' w' (out ++ printed)
  end.
Proof.
  funelim (main_loop limit clock i stdin w out);
    match goal with H : main_pass _ _ _ _ = _ |- _ => by rewrite H end.
Qed.

(** [_pause] and a paused operation leave the globals to the operation. *)
Lemma _pause_world (stdin : list line) (w : world) (out : list output) :
  pass_world (_pause stdin w out) = w.
Proof. by destruct stdin. Qed.

Lemma then_pause_world {A} (show : A → output) (stdin : list line)
    (outcome : world * result A) :
  pass_world (then_pause show stdin outcome) = outcome.1.
Proof. destruct outcome as [w' [value|e]]; [apply _pause_world|done]. Qed.

(** [_pause] and a paused operation read from the front of the input. *)
Lemma _pause_stdin (stdin : list line) (w : world) (out : list output) :
  pass_stdin (_pause stdin w out) `suffix_of` stdin.
Proof. destruct stdin; [done|]. by apply suffix_cons_r. Qed.

Lemma then_pause_stdin {A} (show : A → output) (stdin : list line)
    (outcome : world * result A) :
  pass_stdin (then_pause show stdin outcome) `suffix_of` stdin.
Proof. destruct outcome as [w' [value|e]]; [apply _pause_stdin|done]. Qed.

(** [display_ledger] prints the notice exactly when the ledger is empty,
    and otherwise every record, in the order of the ledger; it changes
    nothing. *)
Lemma display_ledger_spec (w : world) :
  display_ledger w =
  (w, Ok (if decide (ledger w = []) then NoTransactionsRecorded
          else LedgerReport (ledger w))).
Proof. unfold display_ledger. M_simpl. by destruct (ledger w). Qed.

(** A pass leaves the globals as they are, or as one call of
    [add_new_product] or [place_order] leaves them. *)
Lemma main_pass_world (limit : nat) (now : datetime) (stdin : list line)
    (w : world) :
  pass_world (main_pass limit now stdin w) = w ∨
  ∃ c, from_menu (c, now) ∧
       pass_world (main_pass limit now stdin w) = (perform c now w).1.
Proof.
  unfold main_pass. destruct stdin as [|choice stdin]; [by left|].
  repeat case_decide;
    try (left;
         by rewrite ?then_pause_world, ?_pause_world, ?display_ledger_spec).
  - unfold add_new_product_typed.
    destruct stdin as [|name [|category [|price stdin]]]; try by left.
    destruct (as_float price) eqn:Hprice.
    + destruct stdin as [|stock stdin]; [by left|].
      right. eexists (AddNewProduct _ _ _ _). split; [done|].
      by rewrite then_pause_world, perform_world.
    + right. eexists (AddNewProduct _ _ _ _). split; [done|].
      by rewrite then_pause_world, perform_world.
  - unfold place_order_typed. destruct stdin as [|entry stdin]; [by left|].
    destruct (as_int entry) as [pid|].
    + destruct (_get_product_by_id (inventory w) pid).
      * destruct stdin as [|quantity stdin]; [by left|].
        right. eexists (PlaceOrder _ _). split; [done|].
        by rewrite then_pause_world, perform_world.
      * right. eexists (PlaceOrder _ _). split; [done|].
        by rewrite then_pause_world, perform_world.
    + right. eexists (PlaceOrder _ _). split; [done|].
      by rewrite then_pause_world, perform_world.
  - left. unfold cost_typed. destruct stdin as [|entry stdin]; [done|].
    destruct (as_int entry); [|done]. by rewrite then_pause_world.
Qed.

(** A pass reads lines from the front of the input. *)
Lemma main_pass_stdin (limit : nat) (now : datetime) (stdin : list line)
    (w : world) :
  pass_stdin (main_pass limit now stdin w) `suffix_of` stdin.
Proof.
  unfold main_pass, add_new_product_typed, place_order_typed, cost_typed.
  repeat case_match; subst;
    repeat (apply suffix_cons_r);
    first [done | apply then_pause_stdin | apply _pause_stdin
          | apply suffix_nil].
Qed.

(** A pass that goes on to the next one has read at least one line. *)
Lemma main_pass_Continue (limit : nat) (now : datetime) (stdin : list line)
    (w : world) (stdin' : list line) (w' : world) (printed : list output) :
  main_pass limit now stdin w = Continue stdin' w' printed →
  (length stdin' < length stdin)%nat.
Proof.
  unfold main_pass, add_new_product_typed, place_order_typed, cost_typed,
    then_pause, _pause.
  intros Hpass. repeat (case_match; simplify_eq; simpl in *; try lia).
Qed.

(** The rule of the loop of [main]: what holds before the first pass and
    is kept by every pass that goes on, and gives [Post] at a pass that
    leaves the loop, gives [Post] of the session. *)
Section main_loop_rule.
Context (limit : nat) (clock : nat → datetime).
Context (Inv : nat → list line → world → list output → Prop).
Context (Post : session → Prop).
Hypothesis pass_rule : ∀ i stdin w out,
  Inv i stdin w out →
  match main_pass limit (clock i) stdin w with
  | Continue stdin' w' printed => Inv (S i) stdin' w' (out ++ printed)
  | Break stdin' w' printed => Post (Session None stdin' w' (out ++ printed))
  | Escape e stdin' w' printed =>
      Post (Session (Some e) stdin' w' (out ++ printed))
  end.

Lemma main_loop_rule (stdin : list line) :
  ∀ i w out, Inv i stdin w out → Post (main_loop limit clock i stdin w out).
Proof.
  remember (length stdin) as n eqn:Hn. revert stdin Hn.
  induction (lt_wf n) as [n _ IH]. intros stdin -> i w out Hinv.
  rewrite main_loop_pass. specialize (pass_rule i stdin w out Hinv).
  destruct (main_pass limit (clock i) stdin w)
    as [stdin' w' printed| |] eqn:Hpass; [|done..].
  apply (IH (length stdin')); [|done..].
  by eapply main_pass_Continue.
Qed.
End main_loop_rule.

(** The globals [main] ends with are those a sequence of calls of
    [add_new_product] and [place_order] leaves, and what it leaves unread is
    the end of the input. *)
Lemma main_run (limit : nat) (clock : nat → datetime) (stdin : list line)
    (w : world) :
  ∃ calls, Forall from_menu calls ∧
    globals (main limit clock stdin w) = run w calls ∧
    unread (main limit clock stdin w) `suffix_of` stdin.
Proof.
  unfold main.
  apply (main_loop_rule limit clock
    (fun _ stdin' w' _ =>
       ∃ calls, Forall from_menu calls ∧ w' = run w calls ∧
                stdin' `suffix_of` stdin)); [|by exists []].
  intros i stdin' w' out (calls & Hmenu & -> & Hsuffix).
  pose proof (main_pass_world limit (clock i) stdin' (run w calls)) as Hworld.
  pose proof (main_pass_stdin limit (clock i) stdin' (run w calls)) as Hstdin.
  assert (∃ calls', Forall from_menu calls' ∧
            pass_world (main_pass limit (clock i) stdin' (run w calls))
            = run w calls') as (calls' & Hmenu' & Hrun).
  { destruct Hworld as [->|(c & Hc & ->)]; [by exists calls|].
    exists (calls ++ [(c, clock i)]). split.
    - apply Forall_app. split; [done|by constructor].
    - unfold run. by rewrite foldl_app. }
  destruct (main_pass limit (clock i) stdin' (run w calls)); simpl in *;
    exists calls'; (split_and!; [done..|by etrans]).
Qed.






(** ** The program as a whole *)


(** X12.  [main] keeps the invariants of the globals, whatever is typed:
    unique product ids, a backorder queue that is an ordered heap, and a
    ledger in step with the catalog. *)
Theorem main_keeps_invariants (limit : nat) (clock : nat → datetime)
    (stdin : list line) (w : world) :
  NoDup (ids (inventory w)) →
  heap_ordered (backorder_queue w) →
  entry_of <$> ledger w = initial_stock_of <$> inventory w →
  (let w' := globals (main limit clock stdin w) in
   NoDup (ids (inventory w')) ∧
   heap_ordered (backorder_queue w') ∧
   entry_of <$> ledger w' = initial_stock_of <$> inventory w').
Proof.
  intros Hnodup Hheap Hstep. cbn zeta.
  destruct (main_run limit clock stdin w) as (calls & Hmenu & -> & _).
  split_and!.
  - by apply run_ids_NoDup.
  - by apply run_heap_ordered.
  - by apply run_in_step.
Qed.

(** A session on the seeded world: a product is added, nine of it are
    ordered, and the invariants hold at the end. *)
Lemma main_keeps_invariants_witness :
  let w' := globals (main 1000 (fun i => 1000000 * Z.of_nat i)
              [Line "2" (Some 2) (Some 2%Q); Line "Monitor" None None;
               Line "Electronics" None None;
               Line "199.99" None (Some 199.99%Q); Line "5" (Some 5) (Some 5%Q);
               Line "" None None;
               Line "4" (Some 4) (Some 4%Q); Line "902" (Some 902) (Some 902%Q);
               Line "9" (Some 9) (Some 9%Q); Line "" None None;
               Line "8" (Some 8) (Some 8%Q)]
              (initial_world (fun _ => 0))) in
  NoDup (ids (inventory w')) ∧ heap_ordered (backorder_queue w') ∧
  entry_of <$> ledger w' = initial_stock_of <$> inventory w'.
Proof.
  apply main_keeps_invariants.
  - by apply (bool_decide_unpack _).
  - by apply is_heap_spec.
  - done.
Defined.




